(** * imagen/dataviews.py: DataView, IndexedView, Cartesian2D, Cartesian2Dx

    A shallow embedding of the containers of [imagen.dataviews] and the
    properties of their specification.

    Conventions of the model.
    - The code is read with Python 3 semantics: ordering comparisons with
      [None] raise [TypeError], [/] is true division, a name that is bound
      neither locally nor at module level raises [NameError].
    - Index values (the "time" feature) are integers, [Z].
    - Data snapshots are numpy arrays living in a heap; Python variables
      and list cells hold references ([loc]) to them, so that aliasing and
      [data.copy()] are observable.
    - A method is a computation in a state-and-exception monad over the
      heap and the receiver object ([self]); a raised exception leaves the
      state as it was when the exception was raised.
    - [SheetCoordinateSystem] (module [imagen.sheetcoords]) is an external
      collaborator and enters as an interface. *)

From Stdlib Require Import ZArith QArith Qround Lia String.
From stdpp Require Import base option list sorting.

Local Open Scope string_scope.
Local Open Scope list_scope.
Local Open Scope nat_scope.

(** ** Python runtime: exceptions, the method monad *)

Inductive exception :=
| NameError
| TypeError
| ValueError
| IndexError
| AttributeError
| ZeroDivisionError
| NotImplementedError
| SystemError.

Inductive result (A : Type) :=
| Ok (a : A)
| Err (e : exception).
Arguments Ok {A} a.
Arguments Err {A} e.

Definition result_bind {A B} (r : result A) (f : A -> result B) : result B :=
  match r with
  | Ok a => f a
  | Err e => Err e
  end.

(** A numpy array: its [shape] tuple and its cells in row-major order. *)
Record ndarray := mk_ndarray { shape : list nat; cells : list Z }.

Definition loc := nat.

(** A Python value as far as this module looks at one: [None], a number,
    a reference to an array, or some other object (an instance, a tuple,
    a class, a module) that is neither ordered, nor copyable, nor
    subscriptable. *)
Inductive value :=
| VNone
| VInt (z : Z)
| VRef (l : loc)
| VObject.

Record world (O : Type) := mk_world { heap : list ndarray; self : O }.
Arguments mk_world {O} heap self.
Arguments heap {O} w.
Arguments self {O} w.

Definition M (O A : Type) := world O -> result A * world O.

Definition ret {O A} (a : A) : M O A := fun w => (Ok a, w).
Definition raise {O A} (e : exception) : M O A := fun w => (Err e, w).
Definition bind {O A B} (m : M O A) (f : A -> M O B) : M O B :=
  fun w => match m w with
           | (Ok a, w') => f a w'
           | (Err e, w') => (Err e, w')
           end.
Definition get_self {O} : M O O := fun w => (Ok (self w), w).
Definition set_self {O} (f : O -> O) : M O unit :=
  fun w => (Ok tt, mk_world (heap w) (f (self w))).
Definition lift {O A} (r : result A) : M O A := fun w => (r, w).

Notation "'let!' x ':=' m 'in' k" := (bind m (fun x => k))
  (at level 10, x name, m at level 100, k at level 200).
Notation "'do!' m 'in' k" := (bind m (fun _ => k))
  (at level 10, m at level 100, k at level 200).

Fixpoint mapM {O A B} (f : A -> M O B) (l : list A) : M O (list B) :=
  match l with
  | [] => ret []
  | x :: l' => let! y := f x in let! ys := mapM f l' in ret (y :: ys)
  end.

(** A list comprehension with a condition: [[x for x in l if c(x)]]. *)
Fixpoint filterM {O A} (c : A -> M O bool) (l : list A) : M O (list A) :=
  match l with
  | [] => ret []
  | x :: l' =>
      let! b := c x in
      let! ys := filterM c l' in
      ret (if b : bool then x :: ys else ys)
  end.

(** Name resolution: the local scope first, then the module's globals. *)
Definition module_globals : list (string * value) :=
  [("param", VObject); ("bisect", VObject);
   ("SheetCoordinateSystem", VObject); ("OrderedDict", VObject);
   ("DataView", VObject); ("IndexedView", VObject);
   ("Cartesian2D", VObject); ("Cartesian2Dx", VObject)].

Fixpoint assoc (x : string) (env : list (string * value)) : option value :=
  match env with
  | [] => None
  | (y, v) :: env' => if String.eqb x y then Some v else assoc x env'
  end.

Definition load_name {O} (locals : list (string * value)) (x : string)
  : M O value :=
  match assoc x (locals ++ module_globals) with
  | Some v => ret v
  | None => raise NameError
  end.

Definition of_option (o : option Z) : value :=
  match o with
  | None => VNone
  | Some z => VInt z
  end.

(** [x < y] on Python values: defined on numbers only. *)
Definition py_lt {O} (x y : value) : M O bool :=
  match x, y with
  | VInt a, VInt b => ret (a <? b)%Z
  | _, _ => raise TypeError
  end.

(** ** Heap operations *)

(** [data.copy()]: a new array object with the same shape and cells.
    [None] and other non-arrays have no [copy] attribute. *)
Definition copy {O} (data : value) : M O loc :=
  fun w =>
    match data with
    | VRef l =>
        match heap w !! l with
        | Some a => (Ok (length (heap w)), mk_world (heap w ++ [a]) (self w))
        | None => (Err SystemError, w)
        end
    | _ => (Err AttributeError, w)
    end.

Definition deref {O} (v : value) : M O ndarray :=
  fun w =>
    match v with
    | VRef l =>
        match heap w !! l with
        | Some a => (Ok a, w)
        | None => (Err SystemError, w)
        end
    | _ => (Err AttributeError, w)
    end.

(** [arr[(r, c)]] on a two-dimensional array; negative indices count from
    the end, anything outside raises [IndexError]. *)
Definition norm_index (i : Z) (dim : nat) : option nat :=
  if ((0 <=? i) && (i <? Z.of_nat dim))%Z then Some (Z.to_nat i)
  else if ((- Z.of_nat dim <=? i) && (i <? 0))%Z
       then Some (Z.to_nat (i + Z.of_nat dim))
       else None.

Definition array_getitem (a : ndarray) (idx : Z * Z) : result Z :=
  match shape a with
  | [d1; d2] =>
      match norm_index (fst idx) d1, norm_index (snd idx) d2 with
      | Some r, Some c =>
          match cells a !! (r * d2 + c) with
          | Some x => Ok x
          | None => Err IndexError
          end
      | _, _ => Err IndexError
      end
  | _ => Err IndexError
  end.

(** ** Library functions used by the module *)

(** [bisect.bisect_left(a, x)]: the loop
    [while lo < hi: mid = (lo+hi)//2; if a[mid] < x: lo = mid+1 else: hi = mid]
    with the number of remaining iterations bounded by [fuel]. *)
Fixpoint bisect_loop (fuel : nat) (a : list Z) (x : Z) (lo hi : nat) : nat :=
  match fuel with
  | O => lo
  | S n =>
      if lo <? hi then
        let mid := (lo + hi) / 2 in
        match a !! mid with
        | Some y =>
            if (y <? x)%Z then bisect_loop n a x (S mid) hi
            else bisect_loop n a x lo mid
        | None => lo
        end
      else lo
  end.

Definition bisect_left (a : list Z) (x : Z) : nat :=
  bisect_loop (length a) a x 0 (length a).

(** [list.insert(i, x)] for [0 <= i]; past the end it appends. *)
Definition list_insert_at {A} (i : nat) (x : A) (l : list A) : list A :=
  take i l ++ x :: drop i l.

(** [list.index(x)]. *)
Fixpoint list_index (x : Z) (l : list Z) : result nat :=
  match l with
  | [] => Err ValueError
  | y :: l' =>
      if (y =? x)%Z then Ok 0
      else result_bind (list_index x l') (fun i => Ok (S i))
  end.

(** [l[i]] for a non-negative index. *)
Definition list_getitem {A} (l : list A) (i : nat) : result A :=
  match l !! i with
  | Some x => Ok x
  | None => Err IndexError
  end.

(** [l[-1]]. *)
Definition list_getlast {A} (l : list A) : result A :=
  match last l with
  | Some x => Ok x
  | None => Err IndexError
  end.

(** [slice(start, stop, step).indices(len)]. *)
Definition slice_indices (start stop step : option Z) (len : Z)
  : result (Z * Z * Z) :=
  let step' := default 1%Z step in
  if (step' =? 0)%Z then Err ValueError
  else
    let lower := if (step' <? 0)%Z then (-1)%Z else 0%Z in
    let upper := if (step' <? 0)%Z then (len - 1)%Z else len in
    let clamp v :=
      if (v <? 0)%Z then Z.max (v + len) lower else Z.min v upper in
    let start' :=
      match start with
      | None => if (step' <? 0)%Z then upper else lower
      | Some s => clamp s
      end in
    let stop' :=
      match stop with
      | None => if (step' <? 0)%Z then lower else upper
      | Some s => clamp s
      end in
    Ok (start', stop', step').

Definition range_length (start stop step : Z) : nat :=
  if (0 <? step)%Z then
    if (start <? stop)%Z then Z.to_nat ((stop - start - 1) / step + 1) else 0
  else
    if (stop <? start)%Z then Z.to_nat ((start - stop - 1) / (- step) + 1)
    else 0.

Definition py_range (start stop step : Z) : list Z :=
  map (fun i => (start + Z.of_nat i * step)%Z)
      (seq 0 (range_length start stop step)).

(** [l[start:stop:step]]. *)
Definition list_getslice {A} (l : list A) (start stop step : option Z)
  : result (list A) :=
  match slice_indices start stop step (Z.of_nat (length l)) with
  | Ok (s, e, st) =>
      Ok (omap (fun i => l !! Z.to_nat i) (py_range s e st))
  | Err e => Err e
  end.

(** [collections.OrderedDict]: keys in order of first insertion; setting an
    existing key replaces its value in place. *)
Definition OrderedDict := list (Z * loc).

Fixpoint od_setitem (k : Z) (v : loc) (od : OrderedDict) : OrderedDict :=
  match od with
  | [] => [(k, v)]
  | (k', v') :: od' =>
      if (k' =? k)%Z then (k', v) :: od' else (k', v') :: od_setitem k v od'
  end.

Definition od_of_pairs (pairs : list (Z * loc)) : OrderedDict :=
  fold_left (fun od p => od_setitem (fst p) (snd p) od) pairs [].

(** ** The coordinate collaborator and Cartesian2D *)

(** [bounds.lbrt()] of a bounding box. *)
Record BoundingBox := mk_bbox { bb_l : Q; bb_b : Q; bb_r : Q; bb_t : Q }.

Definition lbrt (bx : BoundingBox) : Q * Q * Q * Q :=
  (bb_l bx, bb_b bx, bb_r bx, bb_t bx).

(** [SheetCoordinateSystem(bounds, xdensity, ydensity).sheet2matrixidx(x, y)]
    of [imagen.sheetcoords]: whatever it computes, it returns a matrix
    index or raises. *)
Class SheetCoordinateSystem := {
  sheet2matrixidx : BoundingBox -> Q -> Q -> Q * Q -> result (Z * Z)
}.

(** [n / d] with a number of cells above and an extent below.  Numbers
    are rationals here where the program has floats: what is proved below
    uses that a zero divisor raises and that equal operands give equal
    quotients, never the rounded value of a quotient. *)
Definition py_div {O} (n : nat) (d : Q) : M O Q :=
  if Qeq_bool d 0 then raise ZeroDivisionError
  else ret (Qdiv (inject_Z (Z.of_nat n)) d).

(** [v[idx]]: only arrays are subscriptable here. *)
Definition subscript {O} (v : value) (idx : Z * Z) : M O Z :=
  match v with
  | VRef _ => let! a := deref v in lift (array_getitem a idx)
  | _ => raise TypeError
  end.

Module Cartesian2D.
Section Methods.
Context `{SheetCoordinateSystem}.
Context {O : Type}.

Definition _coords2matrixidx (bounds : BoundingBox) (coords : Q * Q)
    (arr : value) : M O (Z * Z) :=
  let '(l, b, r, t) := lbrt bounds in
  let! a := deref arr in
  match shape a with
  | [dim1; dim2] =>
      let! xdensity := py_div dim1 (r - l) in
      let! ydensity := py_div dim2 (t - b) in
      lift (sheet2matrixidx bounds xdensity ydensity coords)
  | _ => raise ValueError
  end.
End Methods.
End Cartesian2D.

(** The class of an instance decides which [_coords2matrixidx] a call
    [self._coords2matrixidx(coords, data)] reaches: the one of the base
    classes is declared with [coords] alone, so calling it with two
    arguments is a [TypeError]; Cartesian2D and Cartesian2Dx share the
    Cartesian one. *)
Inductive klass := Base | Cartesian.

Definition call_coords2matrixidx `{SheetCoordinateSystem} {O} (c : klass)
    (bounds : BoundingBox) (coords : Q * Q) (data : value) : M O (Z * Z) :=
  match c with
  | Base => raise TypeError
  | Cartesian => Cartesian2D._coords2matrixidx bounds coords data
  end.

(** ** DataView *)

Module DataView.
Record t := mk { cls : klass; bounds : BoundingBox; _data : value }.

Definition __init__ (c : klass) (bounds : BoundingBox) : t :=
  mk c bounds VNone.

Definition record (data : value) : M t unit :=
  set_self (fun s => mk (cls s) (bounds s) data).

(** The base hook, reached only by a call with [coords] alone. *)
Definition _coords2matrixidx (coords : Q * Q) : M t (Z * Z) :=
  raise NotImplementedError.

Definition sample `{SheetCoordinateSystem} (coords : Q * Q) : M t Z :=
  let! s := get_self in
  let locals := [("self", VObject); ("coords", VObject)] in
  let! data := load_name locals "data" in
  let! idx := call_coords2matrixidx (cls s) (bounds s) coords data in
  subscript data idx.

Definition view : M t (value * BoundingBox) :=
  let! s := get_self in
  ret (_data s, bounds s).
End DataView.

(** ** IndexedView *)

Inductive index :=
| Key (index_value : Z)
| Slice (start stop step : option Z).

Inductive item :=
| Snapshot (d : loc)
| Mapping (m : OrderedDict).

Module IndexedView.
Record t := mk {
  cls : klass;
  bounds : BoundingBox;
  indexed_ascending : bool;
  _data : list loc;
  _index_labels : list Z
}.

Definition __init__ (c : klass) (bounds : BoundingBox) (ascending : bool)
  : t := mk c bounds ascending [] [].

Definition set_data (f : list loc -> list loc) : M t unit :=
  set_self (fun s =>
    mk (cls s) (bounds s) (indexed_ascending s) (f (_data s))
       (_index_labels s)).

Definition set_index_labels (f : list Z -> list Z) : M t unit :=
  set_self (fun s =>
    mk (cls s) (bounds s) (indexed_ascending s) (_data s)
       (f (_index_labels s))).

Definition _bisect_index (index_value : Z) : M t nat :=
  let! s := get_self in
  let i := bisect_left (_index_labels s) index_value in
  if negb (i =? length (_index_labels s)) then
    let! y := lift (list_getitem (_index_labels s) i) in
    if (y =? index_value)%Z then ret i else raise ValueError
  else raise ValueError.

Definition _bisect_slice (start stop step : option Z) : M t OrderedDict :=
  let! s := get_self in
  let start_ind :=
    match start with
    | None => None
    | Some a => Some (Z.of_nat (bisect_left (_index_labels s) a))
    end in
  let stop_ind :=
    match stop with
    | None => None
    | Some b => Some (Z.of_nat (bisect_left (_index_labels s) b))
    end in
  let! ls := lift (list_getslice (_index_labels s) start_ind stop_ind step) in
  let! ds := lift (list_getslice (_data s) start_ind stop_ind step) in
  ret (od_of_pairs (zip ls ds)).

Definition _bisect_insert (data : value) (index_value : Z) : M t unit :=
  let! s := get_self in
  let insert_index := bisect_left (_index_labels s) index_value in
  let! c := copy data in
  do! set_data (list_insert_at insert_index c) in
  set_index_labels (list_insert_at insert_index index_value).

Definition __getitem__ (indexslice : index) : M t item :=
  let! s := get_self in
  match indexslice with
  | Key index_value =>
      let! matched_index :=
        (if indexed_ascending s then _bisect_index index_value
         else lift (list_index index_value (_index_labels s))) in
      let! d := lift (list_getitem (_data s) matched_index) in
      ret (Snapshot d)
  | Slice start stop step =>
      if indexed_ascending s then
        let! m := _bisect_slice start stop step in
        ret (Mapping m)
      else
        let! c := py_lt (of_option start) (of_option stop) in
        let '(min_val, max_val) :=
          if c : bool then (start, stop) else (stop, start) in
        let! pairs :=
          filterM
            (fun pair : Z * loc =>
               let locals :=
                 [("pair", VObject); ("self", VObject);
                  ("indexslice", VObject);
                  ("start", of_option start); ("stop", of_option stop);
                  ("step", of_option step);
                  ("min_val", of_option min_val);
                  ("max_val", of_option max_val)] in
               let! l := load_name locals "l" in
               let! below := py_lt (of_option min_val) l in
               if below : bool then py_lt l (of_option max_val)
               else ret false)
            (zip (_index_labels s) (_data s)) in
        ret (Mapping (od_of_pairs pairs))
  end.

Definition record (data : value) (index_value : Z) : M t unit :=
  let! s := get_self in
  if indexed_ascending s then _bisect_insert data index_value
  else
    let! c := copy data in
    do! set_data (fun l => l ++ [c]) in
    set_index_labels (fun l => l ++ [index_value]).

(** The base hook, reached only by a call with [coords] alone. *)
Definition _coords2matrixidx (coords : Q * Q) : M t (Z * Z) :=
  raise NotImplementedError.

Definition sample `{SheetCoordinateSystem} (coords : Q * Q)
  : M t (list Z) :=
  let! s := get_self in
  mapM (fun data : loc =>
          let! idx :=
            call_coords2matrixidx (cls s) (bounds s) coords (VRef data) in
          subscript (VRef data) idx)
       (_data s).

Definition view : M t (loc * BoundingBox) :=
  let! s := get_self in
  let! d := lift (list_getlast (_data s)) in
  ret (d, bounds s).

Definition __len__ : M t nat :=
  let! s := get_self in
  ret (length (_index_labels s)).
End IndexedView.

(** ** What a caller can do between method calls *)

(** A caller may record, allocate an array of its own, or overwrite an
    array object in place (through any reference it holds, including one
    obtained from the container). *)
Inductive action :=
| ARecord (data : value) (index_value : Z)
| AAlloc (a : ndarray)
| AStore (l : loc) (a : ndarray).

Definition perform (w : world IndexedView.t) (act : action)
  : world IndexedView.t :=
  match act with
  | ARecord data index_value => snd (IndexedView.record data index_value w)
  | AAlloc a => mk_world (heap w ++ [a]) (self w)
  | AStore l a => mk_world (<[l := a]> (heap w)) (self w)
  end.

Definition run (acts : list action) (w : world IndexedView.t)
  : world IndexedView.t := fold_left perform acts w.

Definition fresh_view (c : klass) (bounds : BoundingBox) (ascending : bool)
    (h : list ndarray) : world IndexedView.t :=
  mk_world h (IndexedView.__init__ c bounds ascending).

(** ** Vocabulary of the properties *)

Section Vocabulary.
Import IndexedView.

(** Position [i] splits [a] around [x]: everything before is smaller,
    everything from [i] on is at least [x]. *)
Definition splits (a : list Z) (x : Z) (i : nat) : Prop :=
  i <= length a /\
  (forall j y, j < i -> a !! j = Some y -> (y < x)%Z) /\
  (forall j y, i <= j -> a !! j = Some y -> (x <= y)%Z).

(** Where [record] puts the new entry. *)
Definition insert_position (s : IndexedView.t) (k : Z) : nat :=
  if indexed_ascending s then bisect_left (_index_labels s) k
  else length (_index_labels s).

(** The state a successful [record] of a copy stored at [d] leads to. *)
Definition recorded (s : IndexedView.t) (d : loc) (k : Z) : IndexedView.t :=
  if indexed_ascending s then
    mk (cls s) (bounds s) (indexed_ascending s)
       (list_insert_at (bisect_left (_index_labels s) k) d (_data s))
       (list_insert_at (bisect_left (_index_labels s) k) k (_index_labels s))
  else
    mk (cls s) (bounds s) (indexed_ascending s)
       (_data s ++ [d]) (_index_labels s ++ [k]).

(** The invariant of an indexed view inside its heap. *)
Record view_inv (w : world IndexedView.t) : Prop := {
  inv_length : length (_data (self w)) = length (_index_labels (self w));
  inv_sorted : indexed_ascending (self w) = true ->
               StronglySorted Z.le (_index_labels (self w));
  inv_refs : Forall (fun d => d < length (heap w)) (_data (self w))
}.

(** [(k, d)] is the rightmost entry of [l] with key [k]. *)
Definition last_entry (l : list (Z * loc)) (k : Z) (d : loc) : Prop :=
  exists l1 l2, l = l1 ++ (k, d) :: l2 /\ k ∉ l2.*1.

(** The keys a slice [[start:stop]] asks for: [start <= k < stop], with a
    missing bound imposing nothing. *)
Definition in_range (start stop : option Z) (k : Z) : bool :=
  match start with None => true | Some a => (a <=? k)%Z end
  && match stop with None => true | Some b => (k <? b)%Z end.

(** The stored entries, in stored order. *)
Definition stored (w : world IndexedView.t) : list (Z * loc) :=
  zip (IndexedView._index_labels (self w)) (IndexedView._data (self w)).

Definition selected (start stop : option Z) (w : world IndexedView.t)
  : list (Z * loc) :=
  List.filter (fun p => in_range start stop p.1) (stored w).

(** The positions a slice runs between. *)
Definition slice_lo (L : list Z) (start : option Z) : nat :=
  match start with None => 0 | Some a => bisect_left L a end.
Definition slice_hi (L : list Z) (stop : option Z) : nat :=
  match stop with None => length L | Some b => bisect_left L b end.

(** What one action of a caller adds to the log of recorded entries: for
    a [record] that returns, the key and the reference that [data.copy()]
    gave in the state of the call. *)
Definition logged (w : world IndexedView.t) (act : action) : list (Z * loc) :=
  match act with
  | ARecord data k =>
      match IndexedView.record data k w, copy data w with
      | (Ok _, _), (Ok d, _) => [(k, d)]
      | _, _ => []
      end
  | _ => []
  end.

(** The entries recorded by a sequence of actions, in the order of the
    calls. *)
Fixpoint record_log (acts : list action) (w : world IndexedView.t)
  : list (Z * loc) :=
  match acts with
  | [] => []
  | act :: acts' => logged w act ++ record_log acts' (perform w act)
  end.

(** [(k, d)] is the leftmost entry of [l] with key [k]. *)
Definition first_entry (l : list (Z * loc)) (k : Z) (d : loc) : Prop :=
  exists l1 l2, l = l1 ++ (k, d) :: l2 /\ k ∉ l1.*1.

(** A computation that leaves heap and receiver as they were, whether it
    returns or raises. *)
Definition read_only {O A} (m : M O A) : Prop := forall w, snd (m w) = w.

(** A caller recording, one after the other, the arrays it holds at the
    given references under the given keys. *)
Definition records (pairs : list (loc * Z)) : list action :=
  map (fun p => ARecord (VRef p.1) p.2) pairs.

(** The stored entries with the array each reference points to. *)
Definition contents (w : world IndexedView.t) : list (Z * option ndarray) :=
  (fun p => (p.1, heap w !! p.2)) <$> stored w.

(** What [sample] computes for one stored snapshot. *)
Definition sample_one `{SheetCoordinateSystem} (w : world IndexedView.t)
    (coords : Q * Q) (data : loc) : result Z :=
  fst ((let! idx :=
          call_coords2matrixidx (cls (self w)) (bounds (self w)) coords
            (VRef data) in
        subscript (VRef data) idx) w).
End Vocabulary.

(** ** Fixtures for concrete instances *)

Definition ex_bounds : BoundingBox := mk_bbox 0 0 2 2.
Definition ex_array : ndarray := mk_ndarray [2; 2] [10; 20; 30; 40]%Z.
Definition ex_array' : ndarray := mk_ndarray [2; 2] [11; 21; 31; 41]%Z.

(** An instance for the examples, after [imagen.sheetcoords]: columns are
    counted from the left edge of the bounds and rows from the top edge,
    each scaled by its density and rounded down. *)
Definition ex_sheet : SheetCoordinateSystem :=
  {| sheet2matrixidx := fun bx xd yd xy =>
       Ok (Qfloor (Qmult (bb_t bx - snd xy) yd),
           Qfloor (Qmult (fst xy - bb_l bx) xd)) |}.

(** * Properties *)

(** ** Sorted lists and [bisect_left] *)

Section Bisect.
Implicit Types (a : list Z) (x y : Z) (lo hi i j : nat).

Lemma sorted_lookup a i j x y :
  StronglySorted Z.le a -> i <= j ->
  a !! i = Some x -> a !! j = Some y -> (x <= y)%Z.
Proof.
  intros Hs. revert i j. induction Hs as [|z a Hs IH Hall]; intros i j Hij Hi Hj.
  - by rewrite lookup_nil in Hi.
  - destruct i as [|i], j as [|j]; simpl in *; try lia.
    + simplify_eq. lia.
    + simplify_eq. eapply Forall_lookup_1 in Hall; eauto.
    + eapply (IH i j); eauto. lia.
Qed.

Lemma mid_bounds lo hi : lo < hi -> lo <= (lo + hi) / 2 < hi.
Proof.
  intros Hlt. split.
  - apply Nat.div_le_lower_bound; lia.
  - apply Nat.Div0.div_lt_upper_bound; lia.
Qed.

Lemma splits_unique a x i j : splits a x i -> splits a x j -> i = j.
Proof.
  intros (Hi & Hbi & Hai) (Hj & Hbj & Haj).
  destruct (Nat.lt_trichotomy i j) as [Hlt|[->|Hlt]]; [|done|].
  - destruct (lookup_lt_is_Some_2 a i) as [y Hy]; [lia|].
    pose proof (Hbj i y Hlt Hy). pose proof (Hai i y (le_n _) Hy). lia.
  - destruct (lookup_lt_is_Some_2 a j) as [y Hy]; [lia|].
    pose proof (Hbi j y Hlt Hy). pose proof (Haj j y (le_n _) Hy). lia.
Qed.

(** The loop stops by its own test before the fuel runs out: any two
    amounts of fuel of at least [hi - lo] give the same answer. *)
Lemma bisect_loop_fuel n m a x lo hi :
  hi <= length a -> hi - lo <= n -> hi - lo <= m ->
  bisect_loop n a x lo hi = bisect_loop m a x lo hi.
Proof.
  revert m lo hi. induction n as [|n IH]; intros m lo hi Hlen Hn Hm.
  - destruct m as [|m]; [done|]. cbn [bisect_loop].
    destruct (Nat.ltb_spec lo hi); [lia|done].
  - destruct m as [|m]; cbn [bisect_loop].
    + destruct (Nat.ltb_spec lo hi); [lia|done].
    + destruct (Nat.ltb_spec lo hi) as [Hlt|]; [|done].
      pose proof (mid_bounds lo hi Hlt) as Hmid.
      destruct (a !! ((lo + hi) / 2)); [|done].
      destruct (_ <? _)%Z; apply IH; lia.
Qed.

Lemma bisect_loop_splits fuel a x lo hi :
  StronglySorted Z.le a ->
  lo <= hi -> hi <= length a -> hi - lo <= fuel ->
  (forall j y, j < lo -> a !! j = Some y -> (y < x)%Z) ->
  (forall j y, hi <= j -> a !! j = Some y -> (x <= y)%Z) ->
  splits a x (bisect_loop fuel a x lo hi).
Proof.
  intros Hs. revert lo hi.
  induction fuel as [|n IH]; intros lo hi Hle Hlen Hfuel Hb Ha.
  - cbn [bisect_loop]. assert (lo = hi) as -> by lia. by repeat split.
  - cbn [bisect_loop]. destruct (Nat.ltb_spec lo hi) as [Hlt|Hge].
    2:{ assert (lo = hi) as -> by lia. by repeat split. }
    pose proof (mid_bounds lo hi Hlt) as Hmid.
    set (mid := (lo + hi) / 2) in *.
    destruct (lookup_lt_is_Some_2 a mid) as [y Hy]; [lia|]. rewrite Hy.
    destruct (Z.ltb_spec y x) as [Hyx|Hxy].
    + apply IH; try lia; [|done].
      intros j z Hj Hz.
      assert ((z <= y)%Z) by (eapply (sorted_lookup a j mid); eauto; lia). lia.
    + apply IH; try lia; [done|].
      intros j z Hj Hz.
      assert ((y <= z)%Z) by (eapply (sorted_lookup a mid j); eauto; lia). lia.
Qed.

Lemma bisect_left_splits a x :
  StronglySorted Z.le a -> splits a x (bisect_left a x).
Proof.
  intros Hs. apply bisect_loop_splits; auto; try lia.
  intros j y Hj Hy. apply lookup_lt_Some in Hy. lia.
Qed.

Lemma bisect_left_le a x : StronglySorted Z.le a -> bisect_left a x <= length a.
Proof. intros Hs. by destruct (bisect_left_splits a x Hs). Qed.

Lemma bisect_left_mono a x y :
  StronglySorted Z.le a -> (x <= y)%Z -> bisect_left a x <= bisect_left a y.
Proof.
  intros Hs Hxy.
  destruct (bisect_left_splits a x Hs) as (Hi & Hbi & Hai).
  destruct (bisect_left_splits a y Hs) as (Hj & Hbj & Haj).
  destruct (Nat.le_gt_cases (bisect_left a x) (bisect_left a y)) as [|Hlt]; [done|].
  destruct (lookup_lt_is_Some_2 a (bisect_left a y)) as [z Hz]; [lia|].
  pose proof (Hbi _ z Hlt Hz). pose proof (Haj _ z (le_n _) Hz). lia.
Qed.

(** Inserting at a splitting position keeps the list sorted. *)
Lemma insert_at_split_sorted a x i :
  StronglySorted Z.le a -> splits a x i ->
  StronglySorted Z.le (list_insert_at i x a).
Proof.
  intros Hs (Hi & Hb & Ha). unfold list_insert_at.
  rewrite <- (take_drop i a) in Hs.
  apply StronglySorted_app in Hs as (H12 & H1 & H2).
  apply StronglySorted_app_2; [|done|].
  2:{ constructor; [done|]. apply Forall_lookup_2. intros j y Hj.
      rewrite lookup_drop in Hj. eapply Ha; [|done]. lia. }
  intros y z Hy Hz.
  apply list_elem_of_lookup in Hy as [j Hj].
  apply lookup_take_Some in Hj as [Hj Hji].
  pose proof (Hb j y Hji Hj).
  apply elem_of_cons in Hz as [->|Hz]; [lia|].
  apply list_elem_of_lookup in Hz as [k Hk]. rewrite lookup_drop in Hk.
  assert ((x <= z)%Z) by (eapply Ha; [|done]; lia). lia.
Qed.
End Bisect.

(** ** [record] step by step *)

Section Record.
Import IndexedView.
Implicit Types (w : world IndexedView.t) (data : value) (k : Z).

Lemma record_unfold data k w :
  record data k w =
    match data with
    | VRef l =>
        match heap w !! l with
        | Some a =>
            (Ok tt,
             mk_world (heap w ++ [a]) (recorded (self w) (length (heap w)) k))
        | None => (Err SystemError, w)
        end
    | _ => (Err AttributeError, w)
    end.
Proof.
  destruct w as [h [c bx asc D L]]. unfold recorded.
  destruct asc, data as [| |l|]; try reflexivity;
    unfold record, _bisect_insert, bind, get_self, copy; simpl;
    destruct (h !! l); reflexivity.
Qed.

Lemma record_Ok data k w w' :
  record data k w = (Ok tt, w') ->
  exists l a, data = VRef l /\ heap w !! l = Some a /\
    w' = mk_world (heap w ++ [a]) (recorded (self w) (length (heap w)) k).
Proof.
  rewrite record_unfold. intros Hr.
  destruct data as [| |l|]; try discriminate.
  destruct (heap w !! l) as [a|] eqn:Hl; [|discriminate].
  exists l, a. by simplify_eq.
Qed.

Lemma record_Err data k w w' e :
  record data k w = (Err e, w') -> w' = w.
Proof.
  rewrite record_unfold. intros Hr.
  destruct data as [| |l|]; try (by simplify_eq).
  destruct (heap w !! l); by simplify_eq.
Qed.

Lemma list_insert_at_length {A} i (x : A) l :
  length (list_insert_at i x l) = S (length l).
Proof.
  unfold list_insert_at.
  rewrite length_app, length_cons, length_take, length_drop. lia.
Qed.

Lemma list_insert_at_end {A} (x : A) l i :
  i = length l -> list_insert_at i x l = l ++ [x].
Proof.
  intros ->. unfold list_insert_at. by rewrite take_ge, drop_ge by lia.
Qed.

Lemma list_insert_at_Forall {A} (P : A -> Prop) i x l :
  P x -> Forall P l -> Forall P (list_insert_at i x l).
Proof.
  intros Hx Hl. unfold list_insert_at. apply Forall_app. split.
  - by apply Forall_take.
  - constructor; [done|]. by apply Forall_drop.
Qed.

Lemma recorded_flag s d k :
  indexed_ascending (recorded s d k) = indexed_ascending s.
Proof. unfold recorded. by destruct (indexed_ascending s). Qed.

Lemma recorded_inv h a s k :
  view_inv (mk_world h s) ->
  view_inv (mk_world (h ++ [a]) (recorded s (length h) k)).
Proof.
  intros [Hlen Hsorted Hrefs]. simpl in *.
  assert (Forall (fun d => d < length (h ++ [a])) (_data s)) as Hrefs'.
  { eapply Forall_impl; [exact Hrefs|]. intros d Hd. simpl in Hd.
    rewrite length_app. simpl. lia. }
  assert (length h < length (h ++ [a])) as Hnew
    by (rewrite length_app; simpl; lia).
  unfold recorded. destruct (indexed_ascending s) eqn:Hasc.
  - constructor; simpl.
    + by rewrite !list_insert_at_length, Hlen.
    + intros _. apply insert_at_split_sorted; [by apply Hsorted|].
      apply bisect_left_splits. by apply Hsorted.
    + by apply list_insert_at_Forall.
  - constructor; simpl.
    + rewrite !length_app. simpl. lia.
    + done.
    + apply Forall_app. split; [done|]. by constructor.
Qed.

Lemma perform_inv w act : view_inv w -> view_inv (perform w act).
Proof.
  intros Hinv. destruct act as [data k|a|l a]; simpl.
  - rewrite record_unfold.
    destruct data as [| |l|]; try done.
    destruct (heap w !! l) as [a|]; [|done]. simpl.
    destruct w as [h s]. by apply recorded_inv.
  - destruct Hinv as [Hlen Hsorted Hrefs]. constructor; simpl; try done.
    eapply Forall_impl; [exact Hrefs|]. intros d Hd. simpl in Hd.
    rewrite length_app. simpl. lia.
  - destruct Hinv as [Hlen Hsorted Hrefs]. constructor; simpl; try done.
    by rewrite length_insert.
Qed.

Lemma perform_flag w act :
  indexed_ascending (self (perform w act)) = indexed_ascending (self w).
Proof.
  destruct act as [data k|a|l a]; simpl; try done.
  rewrite record_unfold.
  destruct data as [| |l|]; try done.
  destruct (heap w !! l); [|done]. simpl. apply recorded_flag.
Qed.

Lemma run_inv acts w : view_inv w -> view_inv (run acts w).
Proof.
  revert w. induction acts as [|act acts IH]; intros w Hw; [done|].
  simpl. apply IH. by apply perform_inv.
Qed.

Lemma run_flag acts w :
  indexed_ascending (self (run acts w)) = indexed_ascending (self w).
Proof.
  revert w. induction acts as [|act acts IH]; intros w; [done|].
  simpl. rewrite IH. apply perform_flag.
Qed.

Lemma fresh_view_inv c bx asc h : view_inv (fresh_view c bx asc h).
Proof. constructor; simpl; [done| |done]. intros _. constructor. Qed.

Lemma reachable_inv c bx asc h acts :
  view_inv (run acts (fresh_view c bx asc h)).
Proof. apply run_inv, fresh_view_inv. Qed.

Lemma reachable_flag c bx asc h acts :
  indexed_ascending (self (run acts (fresh_view c bx asc h))) = asc.
Proof. by rewrite run_flag. Qed.
End Record.

(** ** Slices of lists *)

Section Slices.
Context {A : Type}.
Implicit Types (l : list A) (i j n : nat).

Lemma omap_lookup_range l i s n :
  i + s + n <= length l ->
  omap (fun z => l !! Z.to_nat z)
       (map (fun m => (Z.of_nat i + Z.of_nat m * 1)%Z) (seq s n))
  = take n (drop (i + s) l).
Proof.
  revert s. induction n as [|n IH]; intros s Hlen; [done|].
  destruct (lookup_lt_is_Some_2 l (i + s)) as [x Hx]; [lia|].
  cbn -[Z.of_nat Z.to_nat Z.add Z.mul take drop].
  replace (Z.to_nat (Z.of_nat i + Z.of_nat s * 1)) with (i + s) by lia.
  rewrite Hx, IH by lia.
  rewrite (drop_S l x (i + s) Hx). cbn [take].
  by replace (i + S s) with (S (i + s)) by lia.
Qed.

Lemma range_length_unit i j :
  range_length (Z.of_nat i) (Z.of_nat j) 1 = j - i.
Proof.
  unfold range_length. cbn.
  destruct (Z.ltb_spec (Z.of_nat i) (Z.of_nat j)); [|lia].
  rewrite Z.div_1_r. lia.
Qed.

Lemma clamp_nat n len :
  n <= len ->
  (if (Z.of_nat n <? 0)%Z then Z.max (Z.of_nat n + Z.of_nat len) 0
   else Z.min (Z.of_nat n) (Z.of_nat len)) = Z.of_nat n.
Proof. intros Hn. destruct (Z.ltb_spec (Z.of_nat n) 0); lia. Qed.

(** With bounds inside the list and no step, a slice is the contiguous
    run between the bounds (empty when they cross). *)
Lemma list_getslice_range l (oi oj : option nat) :
  default 0 oi <= length l -> default (length l) oj <= length l ->
  list_getslice l (Z.of_nat <$> oi) (Z.of_nat <$> oj) None
  = Ok (take (default (length l) oj - default 0 oi) (drop (default 0 oi) l)).
Proof.
  intros Hi Hj. unfold list_getslice, slice_indices. cbn [default].
  change (1 =? 0)%Z with false. change (1 <? 0)%Z with false. cbn iota.
  assert (match Z.of_nat <$> oi with
          | Some s0 =>
              if (s0 <? 0)%Z then Z.max (s0 + Z.of_nat (length l)) 0
              else Z.min s0 (Z.of_nat (length l))
          | None => 0%Z
          end = Z.of_nat (default 0 oi)) as ->.
  { destruct oi as [i|]; [|done]. cbn in *. by apply clamp_nat. }
  assert (match Z.of_nat <$> oj with
          | Some s0 =>
              if (s0 <? 0)%Z then Z.max (s0 + Z.of_nat (length l)) 0
              else Z.min s0 (Z.of_nat (length l))
          | None => Z.of_nat (length l)
          end = Z.of_nat (default (length l) oj)) as ->.
  { destruct oj as [j|]; [|done]. cbn in *. by apply clamp_nat. }
  set (i := default 0 oi) in *. set (j := default (length l) oj) in *.
  unfold py_range. rewrite range_length_unit.
  pose proof (omap_lookup_range l i 0 (j - i)) as Hr.
  rewrite Nat.add_0_r in Hr.
  destruct (Nat.le_gt_cases i j).
  - rewrite Hr by lia. done.
  - replace (j - i) with 0 by lia. done.
Qed.

(** A filter whose predicate holds exactly on the positions of a range
    selects that contiguous run. *)
Lemma filter_index_range (P : A -> bool) l i j :
  (forall n x, l !! n = Some x -> P x = true <-> i <= n < j) ->
  List.filter P l = take (j - i) (drop i l).
Proof.
  revert i j. induction l as [|x l IH]; intros i j HP.
  - by rewrite drop_nil, take_nil.
  - cbn [List.filter].
    assert (List.filter P l = take (pred j - pred i) (drop (pred i) l)) as Hl.
    { apply IH. intros n y Hy. rewrite (HP (S n) y Hy). lia. }
    pose proof (HP 0 x eq_refl) as H0.
    destruct (P x) eqn:HPx.
    + assert (i = 0 /\ 0 < j) as [-> Hj] by (destruct H0 as [H0 _]; lia).
      rewrite Hl. destruct j as [|j]; [lia|]. cbn.
      by rewrite Nat.sub_0_r.
    + destruct i as [|i].
      * destruct j as [|j]; [by rewrite Hl|].
        destruct H0 as [_ H0]. specialize (H0 ltac:(lia)). discriminate.
      * rewrite Hl. cbn [pred drop].
        by replace (pred j - i) with (j - S i) by lia.
Qed.
End Slices.

(** ** Ordered mappings built from pairs *)

Section OrderedDictFacts.
Implicit Types (od l : list (Z * loc)) (k : Z) (d v : loc).

Lemma od_setitem_keys k v od :
  (od_setitem k v od).*1 = if decide (k ∈ od.*1) then od.*1 else od.*1 ++ [k].
Proof.
  induction od as [|[k' v'] od IH]; [done|]. cbn [od_setitem].
  destruct (Z.eqb_spec k' k) as [->|Hne].
  - cbn. rewrite decide_True; [done|]. apply elem_of_cons. by left.
  - cbn. rewrite IH. destruct (decide (k ∈ od.*1)) as [Hin|Hnin].
    + rewrite decide_True; [done|]. apply elem_of_cons. by right.
    + rewrite decide_False; [done|]. intros [?|?]%elem_of_cons; congruence.
Qed.

Lemma od_setitem_fresh k v od : k ∉ od.*1 -> od_setitem k v od = od ++ [(k, v)].
Proof.
  induction od as [|[k' v'] od IH]; [done|]. cbn. intros Hnin.
  apply not_elem_of_cons in Hnin as [Hne Hnin].
  destruct (Z.eqb_spec k' k); [congruence|]. by rewrite IH.
Qed.

Lemma od_setitem_elem k v od k' v' :
  NoDup od.*1 ->
  (k', v') ∈ od_setitem k v od <->
  (k' = k /\ v' = v) \/ (k' <> k /\ (k', v') ∈ od).
Proof.
  induction od as [|[k1 v1] od IH]; intros Hnd.
  - cbn. rewrite list_elem_of_singleton. split.
    + intros [= -> ->]. by left.
    + intros [[-> ->]|[_ Hin]]; [done|]. by apply elem_of_nil in Hin.
  - cbn in Hnd. apply NoDup_cons in Hnd as [Hk1 Hnd].
    cbn [od_setitem]. destruct (Z.eqb_spec k1 k) as [->|Hne].
    + rewrite !elem_of_cons. split.
      * intros [[= -> ->]|Hin]; [by left|]. right. split; [|by right].
        intros ->. apply Hk1. apply list_elem_of_fmap. by exists (k, v').
      * intros [[-> ->]|[Hne [Heq|Hin]]]; [by left|congruence|by right].
    + rewrite !elem_of_cons, (IH Hnd). split.
      * intros [[= -> ->]|[[-> ->]|[Hne' Hin]]].
        -- right. split; [done|by left].
        -- by left.
        -- right. split; [done|by right].
      * intros [[-> ->]|[Hne' [[= -> ->]|Hin]]].
        -- right. by left.
        -- by left.
        -- right. right. by split.
Qed.

Lemma od_of_pairs_snoc l k v :
  od_of_pairs (l ++ [(k, v)]) = od_setitem k v (od_of_pairs l).
Proof. unfold od_of_pairs. by rewrite fold_left_app. Qed.

Lemma od_of_pairs_keys l :
  NoDup (od_of_pairs l).*1 /\ forall k, k ∈ (od_of_pairs l).*1 <-> k ∈ l.*1.
Proof.
  induction l as [|[k v] l [IHnd IHin]] using rev_ind.
  - split; [constructor|done].
  - rewrite od_of_pairs_snoc, od_setitem_keys, fmap_app. cbn.
    destruct (decide (k ∈ (od_of_pairs l).*1)) as [Hin|Hnin].
    + split; [done|]. intros k'. rewrite elem_of_app, list_elem_of_singleton.
      rewrite IHin. split; [by left|]. intros [?| ->]; [done|]. by apply IHin.
    + split.
      * apply NoDup_app. split_and!; [done| |apply NoDup_singleton].
        intros x Hx ->%list_elem_of_singleton. done.
      * intros k'. rewrite !elem_of_app, IHin. done.
Qed.

Lemma last_entry_snoc l k v k' d' :
  last_entry (l ++ [(k, v)]) k' d' <->
  (k' = k /\ d' = v) \/ (k' <> k /\ last_entry l k' d').
Proof.
  split.
  - intros (l1 & l2 & Heq & Hnin).
    destruct l2 as [|q l2 _] using rev_ind.
    + apply app_inj_tail in Heq as [_ [= -> ->]]. by left.
    + rewrite app_comm_cons, app_assoc in Heq.
      apply app_inj_tail in Heq as [-> <-]. right.
      rewrite fmap_app in Hnin. cbn in Hnin.
      apply not_elem_of_app in Hnin as [Hn1 Hn2].
      split; [|by exists l1, l2].
      intros ->. apply Hn2. by apply list_elem_of_singleton.
  - intros [[-> ->]|[Hne (l1 & l2 & -> & Hnin)]].
    + exists l, []. split; [done|]. apply not_elem_of_nil.
    + exists l1, (l2 ++ [(k, v)]). split; [by rewrite <- app_assoc|].
      rewrite fmap_app. cbn. apply not_elem_of_app. split; [done|].
      by intros ->%list_elem_of_singleton.
Qed.

(** The mapping keeps, for every key, the rightmost pair with it. *)
Lemma od_of_pairs_elem l k d : (k, d) ∈ od_of_pairs l <-> last_entry l k d.
Proof.
  revert k d. induction l as [|[k1 v1] l IH] using rev_ind; intros k d.
  - split; [by intros ?%elem_of_nil|].
    intros (l1 & l2 & Heq & _). by destruct l1.
  - rewrite od_of_pairs_snoc, last_entry_snoc.
    rewrite od_setitem_elem by apply od_of_pairs_keys. by rewrite IH.
Qed.

Lemma od_of_pairs_sorted l :
  StronglySorted Z.le l.*1 -> StronglySorted Z.lt (od_of_pairs l).*1.
Proof.
  induction l as [|[k v] l IH] using rev_ind; intros Hs; [constructor|].
  rewrite fmap_app in Hs. cbn in Hs.
  apply StronglySorted_app in Hs as (Hle & Hs & _).
  rewrite od_of_pairs_snoc, od_setitem_keys.
  destruct (decide (k ∈ (od_of_pairs l).*1)) as [Hin|Hnin]; [by apply IH|].
  apply StronglySorted_app_2; [|by apply IH|repeat constructor].
  intros x y Hx ->%list_elem_of_singleton.
  assert (x <> k) by (by intros ->).
  assert ((x <= k)%Z); [|lia].
  apply Hle; [by apply od_of_pairs_keys|by apply list_elem_of_singleton].
Qed.

Lemma od_of_pairs_NoDup l : NoDup l.*1 -> od_of_pairs l = l.
Proof.
  induction l as [|[k v] l IH] using rev_ind; intros Hnd; [done|].
  rewrite fmap_app in Hnd. cbn in Hnd.
  apply NoDup_app in Hnd as (Hnd & Hnin & _).
  rewrite od_of_pairs_snoc, IH by done.
  apply od_setitem_fresh. intros Hin. by apply (Hnin k), list_elem_of_singleton.
Qed.

Lemma filter_split (f : Z * loc -> bool) l m1 x m2 :
  List.filter f l = m1 ++ x :: m2 ->
  exists l1 l2, l = l1 ++ x :: l2 /\
    List.filter f l1 = m1 /\ List.filter f l2 = m2 /\ f x = true.
Proof.
  revert m1. induction l as [|y l IH]; intros m1 Heq.
  - by destruct m1.
  - cbn in Heq. destruct (f y) eqn:Hy.
    + destruct m1 as [|z m1]; cbn in Heq.
      * injection Heq as -> <-. exists [], l. by rewrite Hy.
      * injection Heq as -> Heq. apply IH in Heq as (l1 & l2 & -> & H1 & H2 & Hx).
        exists (z :: l1), l2. cbn. by rewrite Hy, H1.
    + apply IH in Heq as (l1 & l2 & -> & H1 & H2 & Hx).
      exists (y :: l1), l2. cbn. by rewrite Hy.
Qed.

(** Filtering on the key keeps or drops all the pairs of a key together. *)
Lemma last_entry_filter (P : Z -> bool) l k d :
  last_entry (List.filter (fun p => P p.1) l) k d <->
  P k = true /\ last_entry l k d.
Proof.
  split.
  - intros (m1 & m2 & Heq & Hnin).
    apply filter_split in Heq as (l1 & l2 & -> & H1 & H2 & Hk). cbn in Hk.
    split; [done|]. exists l1, l2. split; [done|].
    intros Hin. apply Hnin. apply list_elem_of_fmap in Hin as ([k' d'] & -> & Hin).
    apply list_elem_of_fmap. exists (k', d'). split; [done|].
    rewrite <- H2. apply list_elem_of_In, filter_In. split; [|done].
    by apply list_elem_of_In.
  - intros [Hk (l1 & l2 & -> & Hnin)].
    exists (List.filter (fun p => P p.1) l1), (List.filter (fun p => P p.1) l2).
    rewrite List.filter_app. cbn. rewrite Hk. split; [done|].
    intros Hin. apply Hnin. apply list_elem_of_fmap in Hin as (p & -> & Hin).
    apply list_elem_of_fmap. exists p. split; [done|].
    apply list_elem_of_In in Hin. apply filter_In in Hin as [Hin _].
    by apply list_elem_of_In.
Qed.
End OrderedDictFacts.

(** ** Claims about [record] *)

Section RecordClaims.
Import IndexedView.

Lemma splits_Forall (a : list Z) x i :
  splits a x i ->
  Forall (fun y => (y < x)%Z) (take i a) /\
  Forall (fun y => (x <= y)%Z) (drop i a).
Proof.
  intros (_ & Hb & Ha). split; apply Forall_lookup_2; intros j y Hj.
  - apply lookup_take_Some in Hj as [Hj Hlt]. by eapply Hb.
  - rewrite lookup_drop in Hj. eapply Ha; [|done]. lia.
Qed.

(** C1: in a view constructed with [indexed_ascending=True], after any
    sequence of [record] calls (interleaved with anything else a caller
    can do) [_index_labels] is non-decreasing and as long as [_data];
    and a further [record] of an array under any key [k] returns, having
    put [k] and the copy into both lists at one position [i] that has
    only smaller keys before it and no smaller key from it on: the new
    entry stands before the entries with an equal key. *)
Theorem C1_ascending_record_sorted c bx h acts :
  let w := run acts (fresh_view c bx true h) in
  let L := _index_labels (self w) in
  let D := _data (self w) in
  StronglySorted Z.le L /\
  length D = length L /\
  forall l a k,
    heap w !! l = Some a ->
    exists w' i d,
      record (VRef l) k w = (Ok tt, w') /\
      i <= length L /\
      _index_labels (self w') = take i L ++ k :: drop i L /\
      _data (self w') = take i D ++ d :: drop i D /\
      Forall (fun y => (y < k)%Z) (take i L) /\
      Forall (fun y => (k <= y)%Z) (drop i L).
Proof.
  intros w L D.
  pose proof (reachable_inv c bx true h acts) as [Hlen Hsorted Hrefs].
  pose proof (reachable_flag c bx true h acts) as Hflag.
  fold w in Hlen, Hsorted, Hrefs, Hflag. specialize (Hsorted Hflag).
  split_and!; [done..|]. intros l a k Hl.
  eexists _, (bisect_left L k), (length (heap w)).
  rewrite record_unfold, Hl. split; [reflexivity|].
  unfold recorded. rewrite Hflag. cbn.
  split_and!; [by apply bisect_left_le|done..| |];
    by apply splits_Forall, bisect_left_splits.
Qed.

Lemma C1_ascending_record_sorted_witness :
  let w := run (records [(0, 1%Z); (0, 3%Z); (0, 2%Z)])
               (fresh_view Base ex_bounds true [ex_array]) in
  StronglySorted Z.le [1; 2; 3]%Z /\
  exists w',
    record (VRef 0) 2%Z w = (Ok tt, w') /\
    _index_labels (self w') = [1; 2; 2; 3]%Z /\
    _data (self w') = [1; 4; 3; 2].
Proof.
  intros w.
  destruct (C1_ascending_record_sorted Base ex_bounds [ex_array]
              (records [(0, 1%Z); (0, 3%Z); (0, 2%Z)]))
    as (Hsorted & _ & Hrec).
  split; [exact Hsorted|].
  destruct (Hrec 0 ex_array 2%Z eq_refl) as (w' & i & d & Hw' & _).
  exists w'. split; [exact Hw'|].
  assert (w' = snd (record (VRef 0) 2%Z w)) as ->
    by exact (eq_sym (f_equal snd Hw')).
  split; reflexivity.
Defined.

(** C9: [record] either succeeds, and then both sequences have gained
    one entry at the same position, or raises, and then nothing at all
    has changed. *)
Theorem C9_record_all_or_nothing c bx asc h acts data k :
  let w := run acts (fresh_view c bx asc h) in
  match record data k w with
  | (Ok _, w') =>
      exists i d, i <= length (_index_labels (self w)) /\
        _index_labels (self w') = list_insert_at i k (_index_labels (self w)) /\
        _data (self w') = list_insert_at i d (_data (self w))
  | (Err _, w') => w' = w
  end.
Proof.
  intros w.
  pose proof (reachable_inv c bx asc h acts) as [Hlen Hsorted Hrefs].
  fold w in Hlen, Hsorted, Hrefs.
  rewrite record_unfold.
  destruct data as [| |l|]; try done.
  destruct (heap w !! l) as [a|]; [|done].
  exists (insert_position (self w) k), (length (heap w)).
  unfold insert_position, recorded. cbn.
  destruct (indexed_ascending (self w)) eqn:Hasc; cbn.
  - split_and!; [|done..]. by apply bisect_left_le, Hsorted.
  - split_and!; [done|..]; symmetry; by apply list_insert_at_end.
Qed.

(** Both outcomes occur: recording [None] raises. *)
Example record_None_raises :
  let w := run [ARecord (VRef 0) 1%Z] (fresh_view Base ex_bounds true [ex_array]) in
  record VNone 2%Z w = (Err AttributeError, w) /\
  exists w', record (VRef 0) 2%Z w = (Ok tt, w') /\
    _index_labels (self w') = [1; 2]%Z /\ _data (self w') = [1; 2].
Proof.
  intros w. split; [reflexivity|].
  exists (snd (record (VRef 0) 2%Z w)). split_and!; reflexivity.
Qed.

(** C7: in either mode [record] stores a reference to a new array that
    did not exist before the call, holds what the caller's array held
    at that moment, and keeps holding it when the caller's array is
    overwritten afterwards. *)
Theorem C7_record_stores_copy c bx asc h acts l a k :
  let w := run acts (fresh_view c bx asc h) in
  heap w !! l = Some a ->
  exists w' i d,
    record (VRef l) k w = (Ok tt, w') /\
    _data (self w') = list_insert_at i d (_data (self w)) /\
    heap w !! d = None /\ d <> l /\ (d ∉ _data (self w)) /\
    heap w' !! d = Some a /\
    forall a',
      heap (perform w' (AStore l a')) !! l = Some a' /\
      heap (perform w' (AStore l a')) !! d = Some a.
Proof.
  intros w Hl.
  pose proof (reachable_inv c bx asc h acts) as [Hlen Hsorted Hrefs].
  fold w in Hlen, Hsorted, Hrefs.
  pose proof (lookup_lt_Some _ _ _ Hl) as Hlt.
  eexists _, (insert_position (self w) k), (length (heap w)).
  rewrite record_unfold, Hl. split; [reflexivity|]. cbn.
  split_and!.
  - unfold insert_position, recorded.
    destruct (indexed_ascending (self w)); cbn; [done|].
    symmetry. by apply list_insert_at_end.
  - by apply lookup_ge_None_2.
  - lia.
  - intros Hin. eapply Forall_forall in Hrefs; [|exact Hin].
    cbn in Hrefs. lia.
  - by rewrite lookup_app_r, Nat.sub_diag.
  - intros a'. split.
    + apply list_lookup_insert_eq. rewrite length_app. lia.
    + rewrite list_lookup_insert_ne by lia.
      by rewrite lookup_app_r, Nat.sub_diag.
Qed.

Lemma C7_record_stores_copy_witness :
  exists w' i d,
    record (VRef 0) 5%Z (fresh_view Base ex_bounds false [ex_array])
      = (Ok tt, w') /\
    _data (self w') = list_insert_at i d [] /\
    [ex_array] !! d = None /\ d <> 0 /\ (d ∉ @nil loc) /\
    heap w' !! d = Some ex_array /\
    forall a',
      heap (perform w' (AStore 0 a')) !! 0 = Some a' /\
      heap (perform w' (AStore 0 a')) !! d = Some ex_array.
Proof.
  apply (C7_record_stores_copy Base ex_bounds false [ex_array] [] 0 ex_array 5%Z).
  reflexivity.
Defined.
End RecordClaims.

(** ** Claims about indexing in ascending mode *)

Section AscendingLookup.
Import IndexedView.

Lemma list_insert_at_lookup {A} i (x : A) l :
  i <= length l -> list_insert_at i x l !! i = Some x.
Proof.
  intros Hi. unfold list_insert_at.
  rewrite lookup_app_r; rewrite length_take_le by done; [|done].
  by rewrite Nat.sub_diag.
Qed.

Lemma insert_at_split_splits (a : list Z) x i :
  splits a x i -> splits (list_insert_at i x a) x i.
Proof.
  intros (Hi & Hb & Ha). split_and!.
  - rewrite list_insert_at_length. lia.
  - intros j y Hj Hy. unfold list_insert_at in Hy.
    rewrite lookup_app_l in Hy by (rewrite length_take_le; lia).
    apply lookup_take_Some in Hy as [Hy _]. by eapply Hb.
  - intros j y Hj Hy. unfold list_insert_at in Hy.
    rewrite lookup_app_r in Hy; rewrite length_take_le in * by done; [|done].
    rewrite lookup_cons in Hy.
    destruct (j - i) as [|n] eqn:Hn; [simplify_eq; lia|].
    rewrite lookup_drop in Hy. eapply Ha; [|done]. lia.
Qed.

(** A key found by the search yields the snapshot at its position. *)
Lemma getitem_key_found (w : world t) k i d :
  indexed_ascending (self w) = true ->
  bisect_left (_index_labels (self w)) k = i ->
  _index_labels (self w) !! i = Some k ->
  _data (self w) !! i = Some d ->
  __getitem__ (Key k) w = (Ok (Snapshot d), w).
Proof.
  intros Hasc Hi HL HD.
  pose proof (lookup_lt_Some _ _ _ HL) as Hlt.
  unfold __getitem__, bind, get_self, _bisect_index, lift, list_getitem, ret.
  cbn. rewrite Hasc. cbn. rewrite Hi.
  destruct (Nat.eqb_spec i (length (_index_labels (self w)))); [lia|].
  cbn. rewrite HL. cbn. rewrite Z.eqb_refl. cbn. by rewrite HD.
Qed.

Lemma getitem_key_missing (w : world t) k :
  indexed_ascending (self w) = true ->
  bisect_left (_index_labels (self w)) k <= length (_index_labels (self w)) ->
  _index_labels (self w) !! bisect_left (_index_labels (self w)) k <> Some k ->
  __getitem__ (Key k) w = (Err ValueError, w).
Proof.
  intros Hasc Hle Hne.
  unfold __getitem__, bind, get_self, _bisect_index, lift, list_getitem, ret.
  cbn. rewrite Hasc. cbn.
  destruct (Nat.eqb_spec (bisect_left (_index_labels (self w)) k)
              (length (_index_labels (self w)))) as [Heq|Hneq]; [done|].
  cbn.
  destruct (_index_labels (self w) !! _) as [y|] eqn:Hy; cbn.
  - destruct (Z.eqb_spec y k) as [->|]; [done|done].
  - apply lookup_ge_None in Hy. lia.
Qed.

(** C3: in ascending mode [container[k]] returns the snapshot at the
    leftmost position whose key is [k], raises [ValueError] when no
    stored key is [k], and right after [record(d, k)] returns the copy
    that this call has just stored. *)
Theorem C3_point_lookup_leftmost c bx h acts k :
  let w := run acts (fresh_view c bx true h) in
  let L := _index_labels (self w) in
  let D := _data (self w) in
  (k ∈ L ->
     exists i d, L !! i = Some k /\ (forall j, j < i -> L !! j <> Some k) /\
       D !! i = Some d /\
       __getitem__ (Key k) w = (Ok (Snapshot d), w)) /\
  (k ∉ L -> __getitem__ (Key k) w = (Err ValueError, w)) /\
  (forall data w',
     record data k w = (Ok tt, w') ->
     exists l a, data = VRef l /\ heap w !! l = Some a /\
       heap w !! length (heap w) = None /\
       heap w' !! length (heap w) = Some a /\
       __getitem__ (Key k) w' = (Ok (Snapshot (length (heap w))), w')).
Proof.
  intros w L D.
  pose proof (reachable_inv c bx true h acts) as [Hlen Hsorted Hrefs].
  pose proof (reachable_flag c bx true h acts) as Hflag.
  fold w in Hlen, Hsorted, Hrefs, Hflag. specialize (Hsorted Hflag).
  fold L in Hsorted, Hlen. fold D in Hlen.
  pose proof (bisect_left_splits L k Hsorted) as Hsp.
  pose proof Hsp as (Hi & Hb & Ha).
  split_and!.
  - intros [n Hn]%list_elem_of_lookup.
    assert (bisect_left L k <= n) as Hin.
    { destruct (Nat.le_gt_cases (bisect_left L k) n) as [|Hgt]; [done|].
      pose proof (Hb n k Hgt Hn). lia. }
    pose proof (lookup_lt_Some _ _ _ Hn) as Hnlt.
    destruct (lookup_lt_is_Some_2 L (bisect_left L k)) as [y Hy]; [lia|].
    assert (y = k) as ->.
    { pose proof (Ha _ y (le_n _) Hy).
      pose proof (sorted_lookup L _ n y k Hsorted Hin Hy Hn). lia. }
    destruct (lookup_lt_is_Some_2 D (bisect_left L k)) as [d Hd]; [lia|].
    exists (bisect_left L k), d. split_and!; [done| |done|].
    + intros j Hj Hjk. pose proof (Hb j k Hj Hjk). lia.
    + by apply (getitem_key_found w k (bisect_left L k) d).
  - intros Hnin. apply getitem_key_missing; [done..|].
    intros Hk. apply Hnin. by eapply list_elem_of_lookup_2.
  - intros data w' Hrec.
    apply record_Ok in Hrec as (l & a & -> & Hl & ->).
    exists l, a. split_and!; [done..| | |].
    + by apply lookup_ge_None_2.
    + cbn. by rewrite lookup_app_r, Nat.sub_diag.
    + unfold recorded. rewrite Hflag. fold L D.
      apply (getitem_key_found _ k (bisect_left L k)); cbn; [done| | |].
      * eapply splits_unique; [|by apply insert_at_split_splits].
        apply bisect_left_splits. by apply insert_at_split_sorted.
      * by apply list_insert_at_lookup.
      * apply list_insert_at_lookup. lia.
Qed.

Lemma C3_point_lookup_leftmost_witness :
  let w := run [ARecord (VRef 0) 1%Z; ARecord (VRef 1) 3%Z;
                ARecord (VRef 0) 2%Z]
               (fresh_view Base ex_bounds true [ex_array; ex_array']) in
  (exists i d, [1; 2; 3]%Z !! i = Some 2%Z /\
     (forall j, j < i -> [1; 2; 3]%Z !! j <> Some 2%Z) /\
     [2; 4; 3] !! i = Some d /\
     __getitem__ (Key 2%Z) w = (Ok (Snapshot d), w)) /\
  __getitem__ (Key 5%Z) w = (Err ValueError, w) /\
  exists l a, VRef 1 = VRef l /\ heap w !! l = Some a /\
    heap w !! length (heap w) = None /\
    heap (snd (record (VRef 1) 2%Z w)) !! length (heap w) = Some a /\
    __getitem__ (Key 2%Z) (snd (record (VRef 1) 2%Z w))
      = (Ok (Snapshot (length (heap w))), snd (record (VRef 1) 2%Z w)).
Proof.
  intros w.
  pose proof (C3_point_lookup_leftmost Base ex_bounds
                [ex_array; ex_array']
                [ARecord (VRef 0) 1%Z; ARecord (VRef 1) 3%Z;
                 ARecord (VRef 0) 2%Z] 2%Z) as (Hfound & _ & Hrec).
  pose proof (C3_point_lookup_leftmost Base ex_bounds
                [ex_array; ex_array']
                [ARecord (VRef 0) 1%Z; ARecord (VRef 1) 3%Z;
                 ARecord (VRef 0) 2%Z] 5%Z) as (_ & Hmissing & _).
  split_and!.
  - apply Hfound. vm_compute. apply list_elem_of_In. cbn. tauto.
  - apply Hmissing. vm_compute. intros Hin%list_elem_of_In. cbn in Hin.
    intuition discriminate.
  - apply (Hrec (VRef 1) (snd (record (VRef 1) 2%Z w))). reflexivity.
Defined.
End AscendingLookup.

(** ** Claims about slices in ascending mode *)

Section AscendingSlice.
Import IndexedView.

Lemma bisect_slice_run (w : world t) start stop :
  view_inv w -> indexed_ascending (self w) = true ->
  _bisect_slice start stop None w =
    (Ok (od_of_pairs
           (take (slice_hi (_index_labels (self w)) stop
                  - slice_lo (_index_labels (self w)) start)
              (drop (slice_lo (_index_labels (self w)) start) (stored w)))),
     w).
Proof.
  intros [Hlen Hsorted Hrefs] Hasc. specialize (Hsorted Hasc).
  set (L := _index_labels (self w)) in *. set (D := _data (self w)) in *.
  assert (slice_lo L start <= length L) as Hlo
    by (destruct start; cbn; [by apply bisect_left_le|lia]).
  assert (slice_hi L stop <= length L) as Hhi
    by (destruct stop; cbn; [by apply bisect_left_le|lia]).
  unfold _bisect_slice, bind, get_self, lift, ret. fold L D.
  pose proof (list_getslice_range L (bisect_left L <$> start)
                (bisect_left L <$> stop)) as HL.
  pose proof (list_getslice_range D (bisect_left L <$> start)
                (bisect_left L <$> stop)) as HD.
  rewrite <- !option_fmap_compose in HL, HD.
  replace (default 0 (bisect_left L <$> start)) with (slice_lo L start)
    in HL, HD by (by destruct start).
  replace (default (length L) (bisect_left L <$> stop)) with (slice_hi L stop)
    in HL by (by destruct stop).
  replace (default (length D) (bisect_left L <$> stop)) with (slice_hi L stop)
    in HD by (destruct stop; cbn; congruence).
  assert (forall o : option Z,
            match o with
            | Some a => Some (Z.of_nat (bisect_left L a))
            | None => None
            end = (Z.of_nat ∘ bisect_left L) <$> o) as Hfmap
    by (by intros []).
  rewrite !Hfmap, HL, HD by lia.
  unfold stored. fold L D. by rewrite zip_with_drop, zip_with_take.
Qed.

Lemma selected_run (w : world t) start stop :
  view_inv w -> indexed_ascending (self w) = true ->
  selected start stop w =
    take (slice_hi (_index_labels (self w)) stop
          - slice_lo (_index_labels (self w)) start)
         (drop (slice_lo (_index_labels (self w)) start) (stored w)).
Proof.
  intros [Hlen Hsorted Hrefs] Hasc. specialize (Hsorted Hasc).
  set (L := _index_labels (self w)) in *.
  apply filter_index_range. intros n [k d] Hn.
  apply lookup_zip_with_Some in Hn as (k' & d' & [= <- <-] & Hk & Hd).
  fold L in Hk. pose proof (lookup_lt_Some _ _ _ Hk) as Hlt.
  unfold in_range. cbn [fst]. rewrite andb_true_iff.
  assert (match start with None => true | Some a => (a <=? k)%Z end = true
          <-> slice_lo L start <= n) as ->.
  { destruct start as [a|]; cbn; [|split; [lia|done]].
    destruct (bisect_left_splits L a Hsorted) as (_ & Hb & Ha).
    rewrite Z.leb_le. split.
    - intros Hak. destruct (Nat.le_gt_cases (bisect_left L a) n) as [|Hgt]; [done|].
      pose proof (Hb n k Hgt Hk). lia.
    - intros Hle. by eapply Ha. }
  assert (match stop with None => true | Some b => (k <? b)%Z end = true
          <-> n < slice_hi L stop) as ->.
  { destruct stop as [b|]; cbn; [|split; [lia|done]].
    destruct (bisect_left_splits L b Hsorted) as (_ & Hb & Ha).
    rewrite Z.ltb_lt. split.
    - intros Hkb. destruct (Nat.le_gt_cases (bisect_left L b) n) as [Hle|]; [|done].
      pose proof (Ha n k Hle Hk). lia.
    - intros Hlt'. by eapply Hb. }
  done.
Qed.

Lemma getitem_slice_selected (w : world t) start stop :
  view_inv w -> indexed_ascending (self w) = true ->
  __getitem__ (Slice start stop None) w
  = (Ok (Mapping (od_of_pairs (selected start stop w))), w).
Proof.
  intros Hinv Hasc. rewrite selected_run by done.
  unfold __getitem__, bind, get_self. cbn beta iota. rewrite Hasc.
  by rewrite bisect_slice_run.
Qed.

Lemma selected_keys (w : world t) start stop :
  view_inv w -> indexed_ascending (self w) = true ->
  (selected start stop w).*1 =
    take (slice_hi (_index_labels (self w)) stop
          - slice_lo (_index_labels (self w)) start)
         (drop (slice_lo (_index_labels (self w)) start)
            (_index_labels (self w))).
Proof.
  intros Hinv Hasc. rewrite selected_run by done.
  rewrite fmap_take, fmap_drop. unfold stored.
  rewrite fst_zip; [done|]. destruct Hinv as [Hlen _ _]. lia.
Qed.

Lemma sorted_take_drop (R : relation Z) (l : list Z) n i :
  StronglySorted R l -> StronglySorted R (take n (drop i l)).
Proof.
  intros Hs. rewrite <- (take_drop i l) in Hs.
  apply StronglySorted_app_1_r in Hs.
  rewrite <- (take_drop n (drop i l)) in Hs.
  by apply StronglySorted_app_1_l in Hs.
Qed.

Lemma NoDup_take_drop (l : list Z) n i : NoDup l -> NoDup (take n (drop i l)).
Proof.
  intros Hs. rewrite <- (take_drop i l) in Hs.
  apply NoDup_app in Hs as (_ & _ & Hs).
  rewrite <- (take_drop n (drop i l)) in Hs.
  by apply NoDup_app in Hs as (Hs & _ & _).
Qed.
End AscendingSlice.

(** ** Equal keys and the order of recording *)

Section RecordingOrder.
Import IndexedView.

Lemma zip_list_insert_at {A B} i (x : A) (y : B) (l : list A) (k : list B) :
  length l = length k ->
  zip (list_insert_at i x l) (list_insert_at i y k)
  = list_insert_at i (x, y) (zip l k).
Proof.
  intros Hlen. unfold list_insert_at.
  rewrite zip_with_app by (rewrite !length_take; lia).
  cbn. by rewrite zip_with_take, zip_with_drop.
Qed.

(** The entries after a successful [record]: the old ones with the new
    pair put in at the insertion position. *)
Lemma stored_recorded h' (w : world t) d k :
  length (_data (self w)) = length (_index_labels (self w)) ->
  stored (mk_world h' (recorded (self w) d k))
  = list_insert_at (insert_position (self w) k) (k, d) (stored w).
Proof.
  intros Hlen. unfold stored, recorded, insert_position.
  destruct (indexed_ascending (self w)); cbn.
  - by apply zip_list_insert_at.
  - rewrite list_insert_at_end by (by rewrite length_zip_with, Hlen, Nat.min_id).
    by rewrite zip_with_app.
Qed.

Lemma filter_Forall_false {A} (f : A -> bool) (l : list A) :
  Forall (fun x => f x = false) l -> List.filter f l = [].
Proof. induction 1 as [|x l Hx _ IH]; [done|]. cbn. by rewrite Hx. Qed.

Lemma logged_unfold (w : world t) data k :
  logged w (ARecord data k) =
    match data with
    | VRef l =>
        match heap w !! l with
        | Some _ => [(k, length (heap w))]
        | None => []
        end
    | _ => []
    end.
Proof.
  unfold logged. rewrite record_unfold. destruct data as [| |l|]; try done.
  unfold copy. by destruct (heap w !! l).
Qed.

(** One action in ascending mode, seen on the entries of one key: a
    recorded entry goes in front of the stored ones with its key. *)
Lemma perform_filter_key (w : world t) act k :
  view_inv w -> indexed_ascending (self w) = true ->
  List.filter (fun p : Z * loc => (p.1 =? k)%Z) (stored (perform w act))
  = reverse (List.filter (fun p : Z * loc => (p.1 =? k)%Z) (logged w act))
    ++ List.filter (fun p : Z * loc => (p.1 =? k)%Z) (stored w).
Proof.
  intros [Hlen Hsorted Hrefs] Hasc. specialize (Hsorted Hasc).
  destruct act as [data k0|a|l a]; [|done..].
  rewrite logged_unfold. unfold perform. rewrite record_unfold.
  destruct data as [| |l|]; try done.
  destruct (heap w !! l) as [a|]; [|done]. cbn [snd].
  rewrite stored_recorded by done.
  unfold insert_position. rewrite Hasc.
  set (i := bisect_left (_index_labels (self w)) k0).
  pose proof (bisect_left_splits _ k0 Hsorted) as (Hi & Hb & Ha). fold i in Hi, Hb, Ha.
  set (S := stored w).
  unfold list_insert_at. rewrite List.filter_app. cbn [List.filter fst].
  destruct (Z.eqb_spec k0 k) as [->|Hne].
  - assert (List.filter (fun p : Z * loc => (p.1 =? k)%Z) (take i S) = [])
      as Htake.
    { apply filter_Forall_false, Forall_lookup_2.
      intros j [k' d'] [Hj Hlt]%lookup_take_Some.
      apply lookup_zip_with_Some in Hj as (? & ? & [= <- <-] & Hk' & _).
      cbn. apply Z.eqb_neq. pose proof (Hb j k' Hlt Hk'). lia. }
    assert (List.filter (fun p : Z * loc => (p.1 =? k)%Z) S
            = List.filter (fun p : Z * loc => (p.1 =? k)%Z) (drop i S)) as HS.
    { rewrite <- (take_drop i S) at 1. by rewrite List.filter_app, Htake. }
    by rewrite Htake, HS.
  - rewrite <- (take_drop i S) at 3. by rewrite List.filter_app.
Qed.

Lemma run_filter_key acts (w : world t) k :
  view_inv w -> indexed_ascending (self w) = true ->
  List.filter (fun p : Z * loc => (p.1 =? k)%Z) (stored (run acts w))
  = reverse (List.filter (fun p : Z * loc => (p.1 =? k)%Z) (record_log acts w))
    ++ List.filter (fun p : Z * loc => (p.1 =? k)%Z) (stored w).
Proof.
  revert w. induction acts as [|act acts IH]; intros w Hinv Hasc; [done|].
  change (run (act :: acts) w) with (run acts (perform w act)).
  cbn [record_log].
  rewrite IH; [|by apply perform_inv|by rewrite perform_flag].
  rewrite perform_filter_key by done.
  by rewrite List.filter_app, reverse_app, <- app_assoc.
Qed.

(** The rightmost stored entry of a key is the one recorded first. *)
Lemma last_entry_first_logged (S G : list (Z * loc)) k d :
  List.filter (fun p : Z * loc => (p.1 =? k)%Z) S
  = reverse (List.filter (fun p : Z * loc => (p.1 =? k)%Z) G) ->
  last_entry S k d -> first_entry G k d.
Proof.
  intros Heq (l1 & l2 & -> & Hnin).
  rewrite List.filter_app in Heq. cbn [List.filter fst] in Heq.
  rewrite Z.eqb_refl in Heq.
  rewrite (filter_Forall_false _ l2) in Heq.
  2:{ apply Forall_forall. intros [k' d'] Hin. cbn. apply Z.eqb_neq.
      intros ->. apply Hnin. apply list_elem_of_fmap. by exists (k, d'). }
  apply (f_equal reverse) in Heq. rewrite reverse_involutive in Heq.
  rewrite reverse_app in Heq. cbn in Heq. symmetry in Heq.
  apply (filter_split _ _ []) in Heq as (g1 & g2 & -> & Hg1 & _ & _).
  exists g1, g2. split; [done|].
  intros Hin. apply list_elem_of_fmap in Hin as ([k' d'] & Hk & Hin).
  cbn in Hk. subst k'.
  assert ((k, d') ∈ List.filter (fun p : Z * loc => (p.1 =? k)%Z) g1) as Hf.
  { apply list_elem_of_In, filter_In. split; [by apply list_elem_of_In|].
    cbn. apply Z.eqb_refl. }
  rewrite Hg1 in Hf. by apply elem_of_nil in Hf.
Qed.
End RecordingOrder.

Section SliceClaims.
Import IndexedView.

(** C2, as the code has it: in ascending mode [container[start:stop]]
    (either bound possibly [None], no step) is the ordered mapping built
    from the stored entries with [start <= key < stop].  Its keys are
    strictly ascending; for each key in range it holds the snapshot of
    the rightmost stored entry with that key, which is the entry that was
    recorded first under that key; and when the stored keys are pairwise
    distinct it contains exactly the stored entries in range, in stored
    (ascending) order. *)
Theorem C2_slice_ascending c bx h acts start stop :
  let w := run acts (fresh_view c bx true h) in
  exists m,
    __getitem__ (Slice start stop None) w = (Ok (Mapping m), w) /\
    m = od_of_pairs (selected start stop w) /\
    StronglySorted Z.lt m.*1 /\
    (forall k d,
       (k, d) ∈ m <->
       in_range start stop k = true /\ last_entry (stored w) k d) /\
    (forall k d,
       (k, d) ∈ m ->
       first_entry (record_log acts (fresh_view c bx true h)) k d) /\
    (NoDup (_index_labels (self w)) -> m = selected start stop w).
Proof.
  intros w.
  pose proof (reachable_inv c bx true h acts) as Hinv.
  pose proof (reachable_flag c bx true h acts) as Hflag.
  fold w in Hinv, Hflag.
  exists (od_of_pairs (selected start stop w)).
  split_and!; [by apply getitem_slice_selected|done|..].
  - apply od_of_pairs_sorted. rewrite selected_keys by done.
    apply sorted_take_drop. by apply Hinv.
  - intros k d. rewrite od_of_pairs_elem. unfold selected.
    apply (last_entry_filter (in_range start stop)).
  - intros k d Hin. apply od_of_pairs_elem in Hin. unfold selected in Hin.
    apply (last_entry_filter (in_range start stop)) in Hin as [_ Hlast].
    eapply last_entry_first_logged; [|exact Hlast].
    unfold w. rewrite run_filter_key by (by try apply fresh_view_inv).
    by rewrite app_nil_r.
  - intros Hnd. apply od_of_pairs_NoDup. rewrite selected_keys by done.
    by apply NoDup_take_drop.
Qed.

Lemma C2_slice_ascending_witness :
  let w := run [ARecord (VRef 0) 1%Z; ARecord (VRef 1) 3%Z;
                ARecord (VRef 0) 2%Z]
               (fresh_view Base ex_bounds true [ex_array; ex_array']) in
  NoDup [1; 2; 3]%Z /\
  exists m,
    __getitem__ (Slice (Some 1%Z) (Some 3%Z) None) w = (Ok (Mapping m), w) /\
    m = [(1%Z, 2); (2%Z, 4)].
Proof.
  intros w.
  assert (NoDup [1; 2; 3]%Z) as Hnd by (apply NoDup_ListNoDup; repeat constructor; cbn; lia).
  split; [exact Hnd|].
  destruct (C2_slice_ascending Base ex_bounds [ex_array; ex_array']
              [ARecord (VRef 0) 1%Z; ARecord (VRef 1) 3%Z; ARecord (VRef 0) 2%Z]
              (Some 1%Z) (Some 3%Z)) as (m & Hget & _ & _ & _ & _ & Heq).
  exists m. split; [exact Hget|]. exact (Heq Hnd).
Defined.

(** The claim as stated fails when a key is stored twice: the entry
    recorded last for key [1] is stored, lies in [[0:2]], and is not in
    the result. *)
Lemma C2_counterexample :
  let w := run [ARecord (VRef 0) 1%Z; ARecord (VRef 1) 1%Z]
               (fresh_view Base ex_bounds true [ex_array; ex_array']) in
  stored w = [(1%Z, 3); (1%Z, 2)] /\
  selected (Some 0%Z) (Some 2%Z) w = [(1%Z, 3); (1%Z, 2)] /\
  __getitem__ (Slice (Some 0%Z) (Some 2%Z) None) w
    = (Ok (Mapping [(1%Z, 2)]), w) /\
  (1%Z, 3) ∉ [(1%Z, 2)].
Proof.
  intros w. split_and!; try reflexivity.
  intros Hin%list_elem_of_singleton. discriminate.
Qed.

(** In unordered mode the comprehension's condition reads the unbound
    name [l] for the first stored pair. *)
Lemma getitem_slice_unordered_NameError (w : world t) a b step :
  indexed_ascending (self w) = false ->
  stored w <> [] ->
  __getitem__ (Slice (Some a) (Some b) step) w = (Err NameError, w).
Proof.
  intros Hasc Hne. unfold stored in Hne.
  unfold __getitem__, bind, get_self. cbn beta iota. rewrite Hasc.
  cbn [of_option py_lt ret].
  destruct (zip (_index_labels (self w)) (_data (self w))) as [|p ps];
    [done|].
  by destruct (a <? b)%Z.
Qed.

Lemma getitem_slice_unordered_empty c bx h a b step :
  __getitem__ (Slice (Some a) (Some b) step) (fresh_view c bx false h)
  = (Ok (Mapping []), fresh_view c bx false h).
Proof.
  unfold __getitem__, bind, get_self. cbn. by destruct (a <? b)%Z.
Qed.

(** C4 at the failing input: an unordered view holding the single entry
    with key [2]; the slice [[1:3]] should hold that entry and raises
    [NameError] instead. *)
Theorem C4_unordered_slice_raises :
  let w := run [ARecord (VRef 0) 2%Z]
               (fresh_view Base ex_bounds false [ex_array]) in
  stored w = [(2%Z, 1)] /\
  (Z.min 1 3 < 2 < Z.max 1 3)%Z /\
  __getitem__ (Slice (Some 1%Z) (Some 3%Z) None) w = (Err NameError, w).
Proof.
  intros w. split_and!; [reflexivity|lia|lia|].
  by apply getitem_slice_unordered_NameError.
Qed.

(** C10: in unordered mode a slice with a [None] bound raises
    [TypeError] at the comparison of the bounds, whatever is stored;
    in ascending mode the same bounds give a mapping. *)
Theorem C10_unordered_slice_None_bound c bx h acts start stop step :
  start = None \/ stop = None ->
  __getitem__ (Slice start stop step) (run acts (fresh_view c bx false h))
    = (Err TypeError, run acts (fresh_view c bx false h)) /\
  exists m,
    __getitem__ (Slice start stop None) (run acts (fresh_view c bx true h))
    = (Ok (Mapping m), run acts (fresh_view c bx true h)).
Proof.
  intros Hnone. split.
  - pose proof (reachable_flag c bx false h acts) as Hflag.
    unfold __getitem__, bind, get_self. cbn beta iota. rewrite Hflag.
    destruct Hnone as [-> | ->]; [done|]. by destruct start.
  - eexists. apply getitem_slice_selected;
      [apply reachable_inv|apply reachable_flag].
Qed.

Lemma C10_unordered_slice_None_bound_witness :
  __getitem__ (Slice None (Some 3%Z) None)
    (run [ARecord (VRef 0) 2%Z] (fresh_view Base ex_bounds false [ex_array]))
    = (Err TypeError,
       run [ARecord (VRef 0) 2%Z] (fresh_view Base ex_bounds false [ex_array]))
  /\ exists m,
    __getitem__ (Slice None (Some 3%Z) None)
      (run [ARecord (VRef 0) 2%Z] (fresh_view Base ex_bounds true [ex_array]))
    = (Ok (Mapping m),
       run [ARecord (VRef 0) 2%Z] (fresh_view Base ex_bounds true [ex_array])).
Proof.
  apply (C10_unordered_slice_None_bound Base ex_bounds [ex_array]
           [ARecord (VRef 0) 2%Z] None (Some 3%Z) None).
  left. reflexivity.
Defined.
End SliceClaims.

(** ** Claims about sampling and viewing *)

Section SampleClaims.
Context `{SheetCoordinateSystem}.

Lemma bind_Ok {O A B} (m : M O A) (f : A -> M O B) w a w' :
  m w = (Ok a, w') -> bind m f w = f a w'.
Proof. unfold bind. by intros ->. Qed.

(** [DataView.sample] reads the name [data], which no scope binds. *)
Lemma DataView_sample_NameError coords (w : world DataView.t) :
  DataView.sample coords w = (Err NameError, w).
Proof. reflexivity. Qed.

(** The Cartesian mapper looks at a snapshot only through its shape: an
    array of the same shape, wherever it lives, gets the same index. *)
Lemma Cartesian_same_shape_same_index {O O'} bx coords
    (w : world O) (w2 : world O') d d2 a a2 idx :
  heap w !! d = Some a -> heap w2 !! d2 = Some a2 -> shape a2 = shape a ->
  call_coords2matrixidx Cartesian bx coords (VRef d) w = (Ok idx, w) ->
  call_coords2matrixidx Cartesian bx coords (VRef d2) w2 = (Ok idx, w2).
Proof.
  intros Ha Ha2 Hshape.
  unfold call_coords2matrixidx, Cartesian2D._coords2matrixidx, lbrt.
  unfold bind, deref, py_div, lift, raise, ret. rewrite Ha, Ha2, Hshape.
  destruct (shape a) as [|dim1 [|dim2 [|? ?]]]; try discriminate.
  destruct (Qeq_bool (bb_r bx - bb_l bx) 0); [discriminate|].
  destruct (Qeq_bool (bb_t bx - bb_b bx) 0); [discriminate|].
  by intros [= ->].
Qed.

Lemma mapM_sample_ok (w : world IndexedView.t) c bx coords (ds : list loc) :
  (forall d, d ∈ ds ->
     exists a idx x, heap w !! d = Some a /\
       call_coords2matrixidx c bx coords (VRef d) w = (Ok idx, w) /\
       array_getitem a idx = Ok x) ->
  exists vals,
    mapM (fun data : loc =>
            let! idx := call_coords2matrixidx c bx coords (VRef data) in
            subscript (VRef data) idx) ds w = (Ok vals, w) /\
    length vals = length ds /\
    forall i d, ds !! i = Some d ->
      exists a idx x, heap w !! d = Some a /\
        call_coords2matrixidx c bx coords (VRef d) w = (Ok idx, w) /\
        array_getitem a idx = Ok x /\ vals !! i = Some x.
Proof.
  induction ds as [|d ds IH]; intros Hall.
  - exists []. split_and!; [done..|]. intros i d Hd. by rewrite lookup_nil in Hd.
  - destruct (Hall d) as (a & idx & x & Ha & Hidx & Hx); [by left|].
    destruct IH as (vals & Hvals & Hlen & Hspec).
    { intros d' Hd'. apply Hall. by right. }
    exists (x :: vals). split_and!.
    + assert ((let! idx := call_coords2matrixidx c bx coords (VRef d) in
               subscript (VRef d) idx) w = (Ok x, w)) as Hstep.
      { rewrite (bind_Ok _ _ _ _ _ Hidx).
        unfold subscript, bind, deref, lift. by rewrite Ha, Hx. }
      cbn [mapM]. rewrite (bind_Ok _ _ _ _ _ Hstep).
      by rewrite (bind_Ok _ _ _ _ _ Hvals).
    + cbn. by rewrite Hlen.
    + intros [|i] d' Hd'; cbn in Hd'.
      * simplify_eq. by exists a, idx, x.
      * by apply Hspec.
Qed.

(** C8, as the code has it: when the coordinate mapper returns, for every
    stored snapshot, an index that lies inside that snapshot,
    [sample(coords)] on a view of [N] snapshots returns [N] values in
    stored order, the [i]-th being the [i]-th snapshot's cell at the index
    the mapper gives for that snapshot; for the Cartesian classes that
    index depends on the snapshot through its own shape only. *)
Theorem C8_indexed_sample (w : world IndexedView.t) coords :
  let s := self w in
  (forall d, d ∈ IndexedView._data s ->
     exists a idx x, heap w !! d = Some a /\
       call_coords2matrixidx (IndexedView.cls s) (IndexedView.bounds s)
         coords (VRef d) w = (Ok idx, w) /\
       array_getitem a idx = Ok x) ->
  exists vals,
    IndexedView.sample coords w = (Ok vals, w) /\
    length vals = length (IndexedView._data s) /\
    forall i d, IndexedView._data s !! i = Some d ->
      exists a idx x, heap w !! d = Some a /\
        call_coords2matrixidx (IndexedView.cls s) (IndexedView.bounds s)
          coords (VRef d) w = (Ok idx, w) /\
        array_getitem a idx = Ok x /\ vals !! i = Some x /\
        (IndexedView.cls s = Cartesian ->
         forall (O' : Type) (w2 : world O') d2 a2,
           heap w2 !! d2 = Some a2 -> shape a2 = shape a ->
           call_coords2matrixidx Cartesian (IndexedView.bounds s) coords
             (VRef d2) w2 = (Ok idx, w2)).
Proof.
  intros s Hall.
  destruct (mapM_sample_ok w _ _ coords _ Hall) as (vals & Hvals & Hlen & Hspec).
  exists vals. split_and!; [exact Hvals|exact Hlen|].
  intros i d Hd. destruct (Hspec i d Hd) as (a & idx & x & Ha & Hidx & Hx & Hv).
  exists a, idx, x. split_and!; [done..|].
  intros Hc O' w2 d2 a2 Ha2 Hshape. rewrite Hc in Hidx.
  by eapply (Cartesian_same_shape_same_index _ _ w w2 d d2 a a2).
Qed.

(** Without a mapper there is no series: the base class declares
    [_coords2matrixidx] with [coords] alone, and [sample] calls it with
    the snapshot as well. *)
Example IndexedView_sample_base_raises coords :
  let w := run [ARecord (VRef 0) 1%Z]
               (fresh_view Base ex_bounds true [ex_array]) in
  IndexedView.sample coords w = (Err TypeError, w).
Proof. reflexivity. Qed.

(** An empty view gives the empty series: no snapshot, no value. *)
Lemma IndexedView_sample_empty c bx asc h coords :
  IndexedView.sample coords (fresh_view c bx asc h)
  = (Ok [], fresh_view c bx asc h).
Proof. reflexivity. Qed.

(** C6, as the code has it: on a freshly constructed view there is no
    empty-container check.  [DataView.view()] returns the pair of
    [None] and the bounds, [IndexedView.sample(coords)] returns the
    empty list, and [IndexedView.view()] raises the [IndexError] of
    indexing an empty list. *)
Theorem C6_fresh_views c bx asc h coords :
  DataView.view (mk_world h (DataView.__init__ c bx))
    = (Ok (VNone, bx), mk_world h (DataView.__init__ c bx)) /\
  IndexedView.sample coords (fresh_view c bx asc h)
    = (Ok [], fresh_view c bx asc h) /\
  IndexedView.view (fresh_view c bx asc h)
    = (Err IndexError, fresh_view c bx asc h).
Proof. split_and!; reflexivity. Qed.
End SampleClaims.

(** The claim as stated fails: viewing a fresh [DataView] returns a [None]
    snapshot, and sampling a fresh [IndexedView] returns a list. *)
Lemma C6_counterexample :
  (exists r, r = (VNone, ex_bounds) /\
     DataView.view (mk_world [] (DataView.__init__ Cartesian ex_bounds))
     = (Ok r, mk_world [] (DataView.__init__ Cartesian ex_bounds))) /\
  @IndexedView.sample ex_sheet (1 # 2, 1 # 2)
     (fresh_view Cartesian ex_bounds true [])
  = (Ok [], fresh_view Cartesian ex_bounds true []).
Proof. split; [by eexists|reflexivity]. Qed.

(** C5 at the failing input: a Cartesian2D view on which an array has been
    recorded; the mapper gives cell [(1, 0)], which holds [30], and
    [sample] raises [NameError] instead of returning it. *)
Theorem C5_DataView_sample_raises :
  let w0 := mk_world [ex_array] (DataView.__init__ Cartesian ex_bounds) in
  let w := snd (DataView.record (VRef 0) w0) in
  DataView._data (self w) = VRef 0 /\
  @call_coords2matrixidx ex_sheet _ Cartesian ex_bounds (1 # 2, 1 # 2)
     (VRef 0) w = (Ok (1, 0)%Z, w) /\
  array_getitem ex_array (1, 0)%Z = Ok 30%Z /\
  @DataView.sample ex_sheet (1 # 2, 1 # 2) w = (Err NameError, w).
Proof. cbv zeta. split_and!; reflexivity. Qed.

Lemma C8_indexed_sample_witness :
  let w := run [ARecord (VRef 0) 2%Z; ARecord (VRef 1) 1%Z]
               (fresh_view Cartesian ex_bounds true [ex_array; ex_array']) in
  exists vals,
    @IndexedView.sample ex_sheet (3 # 2, 1 # 2) w = (Ok vals, w) /\
    length vals = 2 /\ vals = [41; 40]%Z.
Proof.
  intros w.
  destruct (@C8_indexed_sample ex_sheet w (3 # 2, 1 # 2)) as (vals & Hs & Hlen & Hspec).
  { intros d Hd. vm_compute in Hd.
    apply list_elem_of_In in Hd. cbn in Hd.
    destruct Hd as [<-|[<-|[]]].
    - exists ex_array', (1, 1)%Z, 41%Z. split_and!; reflexivity.
    - exists ex_array, (1, 1)%Z, 40%Z. split_and!; reflexivity. }
  exists vals. split_and!; [exact Hs|exact Hlen|].
  vm_compute in Hs. by injection Hs as <-.
Defined.

(** The claim as stated fails: a view of the base class holding one
    snapshot, and a Cartesian view sampled outside its grid, raise instead
    of returning a sequence of length one. *)
Lemma C8_counterexample :
  let w := run [ARecord (VRef 0) 1%Z]
               (fresh_view Base ex_bounds true [ex_array]) in
  let w2 := run [ARecord (VRef 0) 1%Z]
                (fresh_view Cartesian ex_bounds true [ex_array]) in
  length (IndexedView._data (self w)) = 1 /\
  @IndexedView.sample ex_sheet (1 # 2, 1 # 2) w = (Err TypeError, w) /\
  length (IndexedView._data (self w2)) = 1 /\
  @IndexedView.sample ex_sheet (5 # 2, 1 # 2) w2 = (Err IndexError, w2).
Proof. cbv zeta. split_and!; reflexivity. Qed.

(** * Further properties of the module *)

(** ** Queries never write *)

Section ReadOnly.
Context `{SheetCoordinateSystem}.

Lemma read_only_ret {O A} (a : A) : read_only (@ret O A a).
Proof. by intros w. Qed.

Lemma read_only_raise {O A} e : read_only (@raise O A e).
Proof. by intros w. Qed.

Lemma read_only_lift {O A} (r : result A) : read_only (@lift O A r).
Proof. by intros w. Qed.

Lemma read_only_get_self {O} : read_only (@get_self O).
Proof. by intros w. Qed.

Lemma read_only_bind {O A B} (m : M O A) (f : A -> M O B) :
  read_only m -> (forall a, read_only (f a)) -> read_only (bind m f).
Proof.
  intros Hm Hf w. unfold bind. specialize (Hm w).
  destruct (m w) as [[a|e] w']; cbn in Hm; subst w'; [apply Hf|done].
Qed.

Lemma read_only_load_name {O} locals x : read_only (@load_name O locals x).
Proof. unfold load_name. by destruct (assoc _ _). Qed.

Lemma read_only_py_lt {O} x y : read_only (@py_lt O x y).
Proof. by destruct x, y. Qed.

Lemma read_only_deref {O} v : read_only (@deref O v).
Proof. intros w. destruct v as [| |l|]; try done. cbn. by destruct (_ !! _). Qed.

Lemma read_only_py_div {O} n d : read_only (@py_div O n d).
Proof. unfold py_div. by destruct (Qeq_bool _ _). Qed.

Lemma read_only_subscript {O} v idx : read_only (@subscript O v idx).
Proof.
  destruct v; try apply read_only_raise.
  apply read_only_bind; [apply read_only_deref|intros; apply read_only_lift].
Qed.

Lemma read_only_call_coords2matrixidx {O} c bx coords data :
  read_only (@call_coords2matrixidx _ O c bx coords data).
Proof.
  destruct c; [apply read_only_raise|].
  unfold call_coords2matrixidx, Cartesian2D._coords2matrixidx, lbrt.
  apply read_only_bind; [apply read_only_deref|]. intros a.
  destruct (shape a) as [|dim1 [|dim2 [|? ?]]]; try apply read_only_raise.
  apply read_only_bind; [apply read_only_py_div|]. intros xd.
  apply read_only_bind; [apply read_only_py_div|]. intros yd.
  apply read_only_lift.
Qed.

Lemma read_only_mapM {O A B} (f : A -> M O B) l :
  (forall x, read_only (f x)) -> read_only (mapM f l).
Proof.
  intros Hf. induction l as [|x l IH]; [apply read_only_ret|].
  cbn [mapM]. apply read_only_bind; [apply Hf|]. intros y.
  apply read_only_bind; [apply IH|]. intros ys. apply read_only_ret.
Qed.

Lemma read_only_filterM {O A} (c : A -> M O bool) l :
  (forall x, read_only (c x)) -> read_only (filterM c l).
Proof.
  intros Hc. induction l as [|x l IH]; [apply read_only_ret|].
  cbn [filterM]. apply read_only_bind; [apply Hc|]. intros b.
  apply read_only_bind; [apply IH|]. intros ys. apply read_only_ret.
Qed.

Lemma read_only_bisect_index k : read_only (IndexedView._bisect_index k).
Proof.
  unfold IndexedView._bisect_index.
  apply read_only_bind; [apply read_only_get_self|]. intros s.
  destruct (negb _); [|apply read_only_raise].
  apply read_only_bind; [apply read_only_lift|]. intros y.
  destruct (_ =? _)%Z; [apply read_only_ret|apply read_only_raise].
Qed.

Lemma read_only_bisect_slice start stop step :
  read_only (IndexedView._bisect_slice start stop step).
Proof.
  unfold IndexedView._bisect_slice.
  apply read_only_bind; [apply read_only_get_self|]. intros s.
  apply read_only_bind; [apply read_only_lift|]. intros ls.
  apply read_only_bind; [apply read_only_lift|]. intros ds.
  apply read_only_ret.
Qed.

Lemma read_only_getitem indexslice :
  read_only (IndexedView.__getitem__ indexslice).
Proof.
  unfold IndexedView.__getitem__.
  apply read_only_bind; [apply read_only_get_self|]. intros s.
  destruct indexslice as [k|start stop step].
  - apply read_only_bind.
    { destruct (IndexedView.indexed_ascending s);
        [apply read_only_bisect_index|apply read_only_lift]. }
    intros i. apply read_only_bind; [apply read_only_lift|]. intros d.
    apply read_only_ret.
  - destruct (IndexedView.indexed_ascending s).
    + apply read_only_bind; [apply read_only_bisect_slice|]. intros m.
      apply read_only_ret.
    + apply read_only_bind; [apply read_only_py_lt|]. intros b.
      destruct b.
      * apply read_only_bind; [|intros; apply read_only_ret].
        apply read_only_filterM. intros pair.
        apply read_only_bind; [apply read_only_load_name|]. intros l.
        apply read_only_bind; [apply read_only_py_lt|]. intros below.
        destruct below; [apply read_only_py_lt|apply read_only_ret].
      * apply read_only_bind; [|intros; apply read_only_ret].
        apply read_only_filterM. intros pair.
        apply read_only_bind; [apply read_only_load_name|]. intros l.
        apply read_only_bind; [apply read_only_py_lt|]. intros below.
        destruct below; [apply read_only_py_lt|apply read_only_ret].
Qed.

Lemma read_only_sample coords : read_only (IndexedView.sample coords).
Proof.
  unfold IndexedView.sample.
  apply read_only_bind; [apply read_only_get_self|]. intros s.
  apply read_only_mapM. intros d.
  apply read_only_bind; [apply read_only_call_coords2matrixidx|]. intros idx.
  apply read_only_subscript.
Qed.

(** X2: indexing, sampling, viewing and taking the length of an indexed
    view leave the heap and the view exactly as they were, for every
    argument and whether the call returns or raises. *)
Theorem IndexedView_queries_read_only indexslice coords :
  read_only (IndexedView.__getitem__ indexslice) /\
  read_only (IndexedView.sample coords) /\
  read_only IndexedView.view /\
  read_only IndexedView.__len__.
Proof.
  split_and!.
  - apply read_only_getitem.
  - apply read_only_sample.
  - unfold IndexedView.view.
    apply read_only_bind; [apply read_only_get_self|]. intros s.
    apply read_only_bind; [apply read_only_lift|]. intros d.
    apply read_only_ret.
  - unfold IndexedView.__len__.
    apply read_only_bind; [apply read_only_get_self|]. intros s.
    apply read_only_ret.
Qed.
End ReadOnly.

(** ** DataView keeps the caller's object *)

(** X1: [DataView.record] stores the reference it is given and copies
    nothing: the heap is unchanged, [view()] then returns that very
    reference with the bounds of construction, so an in-place change the
    caller makes afterwards is what [view()] shows; a second [record]
    replaces the first. *)
Theorem DataView_record_view c bx h (data data' : value) l a :
  let w1 := snd (DataView.record data (mk_world h (DataView.__init__ c bx))) in
  let w2 := snd (DataView.record data' w1) in
  heap w1 = h /\
  DataView.view w1 = (Ok (data, bx), w1) /\
  DataView.view w2 = (Ok (data', bx), w2) /\
  (data = VRef l ->
   DataView.view (mk_world (<[l := a]> (heap w1)) (self w1))
   = (Ok (VRef l, bx), mk_world (<[l := a]> h) (self w1))).
Proof. cbv zeta. split_and!; try reflexivity. by intros ->. Qed.

Lemma DataView_record_view_witness :
  DataView.view
    (mk_world (<[0 := ex_array']> [ex_array])
       (self (snd (DataView.record (VRef 0)
                (mk_world [ex_array] (DataView.__init__ Cartesian ex_bounds))))))
  = (Ok (VRef 0, ex_bounds),
     mk_world [ex_array']
       (self (snd (DataView.record (VRef 0)
                (mk_world [ex_array] (DataView.__init__ Cartesian ex_bounds)))))).
Proof.
  apply (DataView_record_view Cartesian ex_bounds [ex_array] (VRef 0) VNone
           0 ex_array').
  reflexivity.
Defined.

(** ** Unordered mode: lookup by key and slices *)

Section Unordered.
Import IndexedView.



Lemma list_index_app_l (x : Z) (l l' : list Z) i :
  list_index x l = Ok i -> list_index x (l ++ l') = Ok i.
Proof.
  revert i. induction l as [|y l IH]; intros i Hi; [done|].
  cbn [list_index app] in *. destruct (y =? x)%Z; [done|].
  destruct (list_index x l) as [j|e]; [|done].
  by rewrite (IH j eq_refl).
Qed.

Lemma list_index_snoc_new (x : Z) (l : list Z) :
  x ∉ l -> list_index x (l ++ [x]) = Ok (length l).
Proof.
  induction l as [|y l IH]; intros Hnin.
  - cbn. by rewrite Z.eqb_refl.
  - apply not_elem_of_cons in Hnin as [Hne Hnin]. cbn [list_index app].
    destruct (Z.eqb_spec y x); [congruence|]. by rewrite IH.
Qed.

Lemma getitem_key_unordered (w : world t) k :
  indexed_ascending (self w) = false ->
  __getitem__ (Key k) w =
    (result_bind (list_index k (_index_labels (self w)))
       (fun i => result_bind (list_getitem (_data (self w)) i)
                   (fun d => Ok (Snapshot d))),
     w).
Proof.
  intros Hasc. unfold __getitem__, bind, get_self, lift, ret.
  cbn beta iota. rewrite Hasc.
  destruct (list_index _ _) as [i|e]; [|done]. cbn.
  by destruct (list_getitem _ _).
Qed.



(** X4: in unordered mode a successful [record(d, k)] is found again
    under [k] only if [k] was not stored before; if it was, [container[k]]
    keeps returning the snapshot it returned before the call. *)
Theorem unordered_record_then_lookup c bx h acts data k w' :
  let w := run acts (fresh_view c bx false h) in
  record data k w = (Ok tt, w') ->
  (k ∉ _index_labels (self w) ->
   __getitem__ (Key k) w' = (Ok (Snapshot (length (heap w))), w')) /\
  (forall d, __getitem__ (Key k) w = (Ok (Snapshot d), w) ->
             __getitem__ (Key k) w' = (Ok (Snapshot d), w')).
Proof.
  intros w Hrec.
  pose proof (reachable_inv c bx false h acts) as [Hlen _ _].
  pose proof (reachable_flag c bx false h acts) as Hflag.
  fold w in Hlen, Hflag.
  apply record_Ok in Hrec as (l & a & -> & Hl & ->).
  unfold recorded. rewrite Hflag.
  split.
  - intros Hnin. rewrite getitem_key_unordered by done. cbn.
    rewrite list_index_snoc_new by done. cbn. unfold list_getitem.
    by rewrite <- Hlen, lookup_app_r, Nat.sub_diag.
  - intros d Hget. rewrite getitem_key_unordered in Hget by done.
    rewrite getitem_key_unordered by done. cbn.
    destruct (list_index k (_index_labels (self w))) as [i|e] eqn:Hi;
      [|discriminate].
    rewrite (list_index_app_l _ _ _ _ Hi). cbn in *.
    unfold list_getitem in *.
    destruct (_data (self w) !! i) as [d'|] eqn:Hd; [|discriminate].
    rewrite (lookup_app_l_Some _ _ _ _ Hd). cbn in *. by simplify_eq.
Qed.

Lemma unordered_record_then_lookup_witness :
  let w := run (records [(0, 5%Z)])
               (fresh_view Base ex_bounds false [ex_array; ex_array']) in
  let w' := snd (record (VRef 1) 5%Z w) in
  (5%Z ∉ [5%Z] -> __getitem__ (Key 5%Z) w' = (Ok (Snapshot 3), w')) /\
  (forall d, __getitem__ (Key 5%Z) w = (Ok (Snapshot d), w) ->
             __getitem__ (Key 5%Z) w' = (Ok (Snapshot d), w')).
Proof.
  intros w w'.
  apply (unordered_record_then_lookup Base ex_bounds [ex_array; ex_array']
           (records [(0, 5%Z)]) (VRef 1) 5%Z w').
  reflexivity.
Defined.

(** X5: in unordered mode a slice with two numeric bounds ignores [step];
    on a view without entries it returns the empty mapping, and with any
    entry stored it raises [NameError]. *)
Theorem unordered_slice_numeric_bounds c bx h acts a b step :
  let w := run acts (fresh_view c bx false h) in
  __getitem__ (Slice (Some a) (Some b) step) w
  = (if decide (stored w = []) then Ok (Mapping []) else Err NameError, w).
Proof.
  intros w. pose proof (reachable_flag c bx false h acts) as Hflag.
  fold w in Hflag. destruct (decide (stored w = [])) as [Hnil|Hne].
  - unfold stored in Hnil.
    unfold __getitem__, bind, get_self. cbn beta iota. rewrite Hflag.
    cbn [of_option py_lt ret]. rewrite Hnil. by destruct (a <? b)%Z.
  - by apply getitem_slice_unordered_NameError.
Qed.
End Unordered.

(** ** Ascending mode: slices with a step, crossed bounds *)

Section AscendingSteps.
Import IndexedView.

Lemma slice_indices_zero_step start stop len :
  slice_indices start stop (Some 0%Z) len = Err ValueError.
Proof. reflexivity. Qed.

Lemma slice_indices_nonzero_step start stop step len :
  step <> Some 0%Z -> exists r, slice_indices start stop step len = Ok r.
Proof.
  intros Hstep. unfold slice_indices.
  destruct (Z.eqb_spec (default 1%Z step) 0) as [Heq|Hne]; [|by eexists].
  destruct step as [z|]; cbn in Heq; [by subst|lia].
Qed.

(** Two lists of one length, cut by the same indices, zip to pairs of the
    zipped lists. *)
Lemma omap_lookup_zip {A B} (l : list A) (k : list B) (idxs : list Z) p :
  length l = length k ->
  p ∈ zip (omap (fun i => l !! Z.to_nat i) idxs)
          (omap (fun i => k !! Z.to_nat i) idxs) ->
  p ∈ zip l k.
Proof.
  intros Hlen. induction idxs as [|i idxs IH]; cbn -[Z.to_nat].
  - by intros ?%elem_of_nil.
  - destruct (l !! Z.to_nat i) as [x|] eqn:Hx.
    + destruct (lookup_lt_is_Some_2 k (Z.to_nat i)) as [y Hy].
      { apply lookup_lt_Some in Hx. lia. }
      rewrite Hy. cbn -[Z.to_nat]. intros [->|Hin]%elem_of_cons; [|by apply IH].
      apply (list_elem_of_lookup_2 _ (Z.to_nat i)).
      apply lookup_zip_with_Some. by exists x, y.
    + assert (k !! Z.to_nat i = None) as ->; [|done].
      apply lookup_ge_None. apply lookup_ge_None in Hx. lia.
Qed.

Lemma od_of_pairs_elem_of l k d : (k, d) ∈ od_of_pairs l -> (k, d) ∈ l.
Proof.
  intros (l1 & l2 & -> & _)%od_of_pairs_elem.
  apply elem_of_app. right. by left.
Qed.

(** X6: in ascending mode a slice with step [0] raises [ValueError]; with
    any other step, whatever the bounds, it returns a mapping with
    pairwise distinct keys all of whose pairs are stored entries: the
    stored references themselves, never copies and never anything else. *)
Theorem ascending_slice_any_step c bx h acts start stop step :
  let w := run acts (fresh_view c bx true h) in
  (step = Some 0%Z ->
   __getitem__ (Slice start stop step) w = (Err ValueError, w)) /\
  (step <> Some 0%Z ->
   exists m,
     __getitem__ (Slice start stop step) w = (Ok (Mapping m), w) /\
     NoDup m.*1 /\
     forall k d, (k, d) ∈ m -> (k, d) ∈ stored w).
Proof.
  intros w.
  pose proof (reachable_inv c bx true h acts) as [Hlen _ _].
  pose proof (reachable_flag c bx true h acts) as Hflag.
  fold w in Hlen, Hflag.
  split.
  - intros ->. unfold __getitem__, _bisect_slice, bind, get_self, lift.
    cbn beta iota. rewrite Hflag. unfold list_getslice.
    by rewrite slice_indices_zero_step.
  - intros Hstep.
    unfold __getitem__, _bisect_slice, bind, get_self, lift, ret.
    cbn beta iota. rewrite Hflag. unfold list_getslice. rewrite Hlen.
    match goal with
    | |- context [slice_indices ?s ?e step ?n] =>
        destruct (slice_indices_nonzero_step s e step n Hstep)
          as [[[s' e'] st'] Hr]; rewrite Hr
    end.
    eexists. split; [reflexivity|]. split; [apply od_of_pairs_keys|].
    intros k d Hin%od_of_pairs_elem_of.
    by apply omap_lookup_zip in Hin.
Qed.

Lemma ascending_slice_any_step_witness :
  let w := run (records [(0, 1%Z); (1, 3%Z); (0, 2%Z)])
               (fresh_view Base ex_bounds true [ex_array; ex_array']) in
  __getitem__ (Slice None None (Some 0%Z)) w = (Err ValueError, w) /\
  exists m,
    __getitem__ (Slice (Some 3%Z) None (Some (-2)%Z)) w = (Ok (Mapping m), w) /\
    m = [(3%Z, 3); (1%Z, 2)].
Proof.
  intros w. split.
  - apply (ascending_slice_any_step Base ex_bounds [ex_array; ex_array']
             (records [(0, 1%Z); (1, 3%Z); (0, 2%Z)]) None None (Some 0%Z)).
    reflexivity.
  - destruct (ascending_slice_any_step Base ex_bounds [ex_array; ex_array']
                (records [(0, 1%Z); (1, 3%Z); (0, 2%Z)])
                (Some 3%Z) None (Some (-2)%Z)) as [_ Hok].
    destruct Hok as (m & Hget & _); [discriminate|].
    exists m. split; [exact Hget|].
    vm_compute in Hget. by injection Hget as <-.
Defined.

Lemma filter_none {A} (f : A -> bool) (l : list A) :
  (forall x, f x = false) -> List.filter f l = [].
Proof.
  intros Hf. induction l as [|x l IH]; [done|]. cbn. by rewrite Hf.
Qed.

(** X7: in ascending mode the bounds of a slice are taken as given: with
    [stop <= start] the result is the empty mapping, whatever is stored
    (the unordered branch would have swapped them). *)
Theorem ascending_slice_crossed_bounds c bx h acts a b :
  let w := run acts (fresh_view c bx true h) in
  (b <= a)%Z ->
  __getitem__ (Slice (Some a) (Some b) None) w = (Ok (Mapping []), w).
Proof.
  intros w Hba.
  rewrite getitem_slice_selected;
    [|apply reachable_inv|apply reachable_flag].
  unfold selected. rewrite filter_none; [done|].
  intros [k d]. unfold in_range. cbn.
  destruct (Z.leb_spec a k), (Z.ltb_spec k b); try done. lia.
Qed.

Lemma ascending_slice_crossed_bounds_witness :
  __getitem__ (Slice (Some 3%Z) (Some 1%Z) None)
    (run (records [(0, 1%Z); (1, 3%Z); (0, 2%Z)])
       (fresh_view Base ex_bounds true [ex_array; ex_array']))
  = (Ok (Mapping []),
     run (records [(0, 1%Z); (1, 3%Z); (0, 2%Z)])
       (fresh_view Base ex_bounds true [ex_array; ex_array'])).
Proof.
  apply (ascending_slice_crossed_bounds Base ex_bounds [ex_array; ex_array']
           (records [(0, 1%Z); (1, 3%Z); (0, 2%Z)]) 3%Z 1%Z).
  lia.
Defined.
End AscendingSteps.

(** ** What [record] does to the stored entries *)

Section StoredEntries.
Import IndexedView.

Lemma list_insert_at_sublist {A} i (x : A) l :
  l `sublist_of` list_insert_at i x l.
Proof.
  unfold list_insert_at. rewrite <- (take_drop i l) at 1.
  apply sublist_app; [done|]. by apply sublist_cons.
Qed.

Lemma perform_stored_sublist (w : world t) act :
  view_inv w -> stored w `sublist_of` stored (perform w act).
Proof.
  intros [Hlen _ _]. destruct act as [data k|a|l a]; simpl; [|done..].
  rewrite record_unfold. destruct data as [| |l|]; try done.
  destruct (heap w !! l); [|done]. simpl.
  rewrite stored_recorded by done. apply list_insert_at_sublist.
Qed.

Lemma run_stored_sublist acts (w : world t) :
  view_inv w -> stored w `sublist_of` stored (run acts w).
Proof.
  revert w. induction acts as [|act acts IH]; intros w Hinv; [done|].
  cbn. etrans; [by apply perform_stored_sublist|].
  apply IH. by apply perform_inv.
Qed.

(** X8: nothing a caller does afterwards removes or reorders a stored
    entry: the entries stored at any moment are, in that order, among the
    entries stored at any later moment; and a [record] call, successful
    or not, leaves every existing array as it is, adding at most one. *)
Theorem stored_entries_persist c bx asc h acts acts' data k :
  let w := run acts (fresh_view c bx asc h) in
  stored w `sublist_of` stored (run (acts ++ acts') (fresh_view c bx asc h)) /\
  exists new, heap (snd (record data k w)) = heap w ++ new /\ length new <= 1.
Proof.
  intros w. split.
  - replace (run (acts ++ acts') (fresh_view c bx asc h)) with (run acts' w)
      by (unfold w, run; by rewrite fold_left_app).
    apply run_stored_sublist, reachable_inv.
  - rewrite record_unfold.
    assert (exists new, heap w = heap w ++ new /\ length new <= 1) as Hsame.
    { exists []. split; [by rewrite app_nil_r|cbn; lia]. }
    destruct data as [| |l|]; try exact Hsame.
    destruct (heap w !! l) as [a|]; [|exact Hsame].
    exists [a]. split; [done|cbn; lia].
Qed.

Lemma run_bounds acts (w : world t) :
  bounds (self (run acts w)) = bounds (self w).
Proof.
  revert w. induction acts as [|act acts IH]; intros w; [done|].
  simpl. rewrite IH. destruct act as [data k|a|l a]; simpl; try done.
  rewrite record_unfold. destruct data as [| |l|]; try done.
  destruct (heap w !! l); [|done]. simpl. unfold recorded.
  by destruct (indexed_ascending (self w)).
Qed.

Lemma view_unfold (w : world t) :
  view w = (match last (_data (self w)) with
            | Some d => Ok (d, bounds (self w))
            | None => Err IndexError
            end, w).
Proof.
  unfold view, bind, get_self, lift, list_getlast, ret.
  by destruct (last _).
Qed.

Lemma last_list_insert_at {A} i (x : A) l :
  last (list_insert_at i x l) = if decide (length l <= i) then Some x else last l.
Proof.
  rewrite !last_lookup, list_insert_at_length. cbn [pred].
  unfold list_insert_at. destruct (decide (length l <= i)) as [Hle|Hgt].
  - rewrite take_ge, drop_ge by done. cbn.
    by rewrite lookup_app_r, Nat.sub_diag.
  - rewrite lookup_app_r by (rewrite length_take; lia).
    rewrite length_take_le by lia. rewrite lookup_cons.
    destruct (length l - i) as [|n] eqn:Hn; [lia|].
    rewrite lookup_drop. f_equal. lia.
Qed.

(** X9: [view()] returns the snapshot in the last slot with the bounds of
    construction.  In ascending mode that is a snapshot whose key is the
    largest one stored, and a successful [record(d, k)] changes what
    [view()] returns, to the new copy, exactly when [k] is greater than
    every stored key (an equal key goes in front); in unordered mode
    [view()] always returns the copy recorded last. *)
Theorem view_returns_last_slot c bx asc h acts :
  let w := run acts (fresh_view c bx asc h) in
  let L := _index_labels (self w) in
  let D := _data (self w) in
  (forall d b, view w = (Ok (d, b), w) ->
     b = bx /\ D !! (length D - 1) = Some d /\
     (asc = true ->
      exists k, L !! (length D - 1) = Some k /\ Forall (fun y => (y <= k)%Z) L)) /\
  (forall data k w',
     record data k w = (Ok tt, w') ->
     view w' =
       (if decide (asc = false \/ Forall (fun y => (y < k)%Z) L)
        then Ok (length (heap w), bx) else fst (view w), w')).
Proof.
  intros w L D.
  pose proof (reachable_inv c bx asc h acts) as [Hlen Hsorted Hrefs].
  pose proof (reachable_flag c bx asc h acts) as Hflag.
  pose proof (run_bounds acts (fresh_view c bx asc h)) as Hbx.
  fold w in Hlen, Hsorted, Hrefs, Hflag, Hbx. cbn in Hbx.
  fold L D in Hlen. split.
  - intros d b Hview. rewrite view_unfold, Hbx in Hview. fold D in Hview.
    destruct (last D) as [d'|] eqn:Hlast; [|discriminate].
    injection Hview as -> ->. rewrite last_lookup in Hlast.
    replace (pred (length D)) with (length D - 1) in Hlast by lia.
    split_and!; [done..|]. intros ->.
    pose proof (lookup_lt_Some _ _ _ Hlast) as Hlt.
    destruct (lookup_lt_is_Some_2 L (length D - 1)) as [k Hk]; [lia|].
    exists k. split; [done|]. apply Forall_lookup_2. intros j y Hy.
    pose proof (lookup_lt_Some _ _ _ Hy) as Hj.
    eapply (sorted_lookup L j (length D - 1)); [by apply Hsorted| |done..].
    lia.
  - intros data k w' Hrec.
    apply record_Ok in Hrec as (l & a & -> & Hl & ->).
    rewrite !view_unfold. cbn [self heap].
    assert (bounds (recorded (self w) (length (heap w)) k) = bx) as ->.
    { unfold recorded. by destruct (indexed_ascending (self w)). }
    rewrite Hbx. unfold recorded. rewrite Hflag. fold L D.
    destruct asc; cbn [_data].
    + specialize (Hsorted Hflag). fold L in Hsorted.
      pose proof (bisect_left_splits L k Hsorted) as (Hi & Hb & Ha).
      rewrite last_list_insert_at.
      destruct (decide (length D <= bisect_left L k)) as [Hle|Hgt].
      * rewrite decide_True; [done|]. right.
        apply Forall_lookup_2. intros j y Hy. eapply Hb; [|done].
        apply lookup_lt_Some in Hy. lia.
      * rewrite decide_False; [done|]. intros [?|Hall]; [done|].
        destruct (lookup_lt_is_Some_2 L (bisect_left L k)) as [y Hy]; [lia|].
        pose proof (Forall_lookup_1 _ _ _ _ Hall Hy) as Hlt. cbn in Hlt.
        pose proof (Ha _ y (le_n _) Hy). lia.
    + rewrite decide_True by (by left). by rewrite last_snoc.
Qed.

Lemma view_returns_last_slot_witness :
  let w := run (records [(0, 1%Z); (1, 3%Z)])
               (fresh_view Base ex_bounds true [ex_array; ex_array']) in
  (ex_bounds = ex_bounds /\ [2; 3] !! (2 - 1) = Some 3 /\
   (true = true ->
    exists k, [1; 3]%Z !! (2 - 1) = Some k /\
      Forall (fun y => (y <= k)%Z) [1; 3]%Z)) /\
  view (snd (record (VRef 0) 3%Z w))
  = (Ok (3, ex_bounds), snd (record (VRef 0) 3%Z w)) /\
  view (snd (record (VRef 0) 4%Z w))
  = (Ok (4, ex_bounds), snd (record (VRef 0) 4%Z w)).
Proof.
  intros w.
  pose proof (view_returns_last_slot Base ex_bounds true
                [ex_array; ex_array'] (records [(0, 1%Z); (1, 3%Z)]))
    as [Hview Hrec].
  split; [|split].
  - exact (Hview 3 ex_bounds eq_refl).
  - exact (Hrec (VRef 0) 3%Z (snd (record (VRef 0) 3%Z w)) eq_refl).
  - exact (Hrec (VRef 0) 4%Z (snd (record (VRef 0) 4%Z w)) eq_refl).
Defined.

(** X10: [len(container)] is the number of stored snapshots: [0] on a
    fresh view, one more after each [record] that returns, the same after
    a [record] that raises. *)
Theorem len_counts_records c bx asc h acts data k :
  let w := run acts (fresh_view c bx asc h) in
  __len__ (fresh_view c bx asc h) = (Ok 0, fresh_view c bx asc h) /\
  __len__ w = (Ok (length (_data (self w))), w) /\
  match record data k w with
  | (Ok _, w') => __len__ w' = (Ok (S (length (_data (self w)))), w')
  | (Err _, w') => __len__ w' = (Ok (length (_data (self w))), w')
  end.
Proof.
  intros w.
  pose proof (reachable_inv c bx asc h acts) as [Hlen _ _]. fold w in Hlen.
  split_and!; [done| |].
  - unfold __len__, bind, get_self, ret. cbn. by rewrite Hlen.
  - rewrite record_unfold. destruct data as [| |l|];
      try (unfold __len__, bind, get_self, ret; cbn; by rewrite Hlen).
    destruct (heap w !! l);
      [|unfold __len__, bind, get_self, ret; cbn; by rewrite Hlen].
    unfold __len__, bind, get_self, ret, recorded. cbn.
    destruct (indexed_ascending (self w)); cbn.
    + by rewrite list_insert_at_length, Hlen.
    + rewrite length_app, Hlen. cbn. f_equal. f_equal. lia.
Qed.
End StoredEntries.

(** ** What a sequence of [record] calls stores *)

Section Contents.
Import IndexedView.

Lemma fmap_list_insert_at {A B} (f : A -> B) i x l :
  f <$> list_insert_at i x l = list_insert_at i (f x) (f <$> l).
Proof.
  unfold list_insert_at. by rewrite fmap_app, fmap_cons, fmap_take, fmap_drop.
Qed.

Lemma list_insert_at_Permutation {A} i (x : A) l :
  list_insert_at i x l ≡ₚ l ++ [x].
Proof.
  unfold list_insert_at. rewrite <- Permutation_middle, take_drop.
  apply Permutation_cons_append.
Qed.

Lemma stored_refs_valid (w : world t) p :
  view_inv w -> p ∈ stored w -> p.2 < length (heap w).
Proof.
  intros [Hlen _ Hrefs] Hin. apply list_elem_of_lookup in Hin as [i Hi].
  apply lookup_zip_with_Some in Hi as (k & d & -> & _ & Hd). cbn.
  by apply (Forall_lookup_1 _ _ _ _ Hrefs Hd).
Qed.

(** One successful [record]: the old contents, untouched, with the pair
    of the key and the caller's array value put in at the insertion
    position. *)
Lemma contents_recorded (w : world t) l a k :
  view_inv w -> heap w !! l = Some a ->
  contents (perform w (ARecord (VRef l) k))
  = list_insert_at (insert_position (self w) k) (k, Some a) (contents w).
Proof.
  intros Hinv Hl. simpl. rewrite record_unfold, Hl. simpl.
  unfold contents. rewrite stored_recorded by apply Hinv.
  rewrite fmap_list_insert_at. cbn [fst snd heap].
  rewrite lookup_app_r, Nat.sub_diag by done. cbn. f_equal.
  apply list_fmap_ext. intros i p Hp. f_equal.
  apply lookup_app_l. apply stored_refs_valid; [done|].
  by eapply list_elem_of_lookup_2.
Qed.

Lemma contents_length (w : world t) :
  length (_data (self w)) = length (_index_labels (self w)) ->
  length (contents w) = length (_index_labels (self w)).
Proof.
  intros Hlen. unfold contents, stored.
  rewrite length_fmap, length_zip_with. lia.
Qed.

Lemma valid_refs_grow (h : list ndarray) a (pairs : list (loc * Z)) :
  Forall (fun p : loc * Z => p.1 < length h) pairs ->
  Forall (fun p : loc * Z => p.1 < length (h ++ [a])) pairs /\
  (fun p : loc * Z => (p.2, (h ++ [a]) !! p.1)) <$> pairs
  = (fun p => (p.2, h !! p.1)) <$> pairs.
Proof.
  intros Hall. split.
  - eapply Forall_impl; [exact Hall|]. intros p Hp. cbn in Hp.
    rewrite length_app. cbn. lia.
  - apply Forall_fmap_ext_1. eapply Forall_impl; [exact Hall|].
    intros p Hp. cbn in Hp. cbn. f_equal. by apply lookup_app_l.
Qed.

Lemma contents_records_Permutation (pairs : list (loc * Z)) (w : world t) :
  view_inv w ->
  Forall (fun p : loc * Z => p.1 < length (heap w)) pairs ->
  contents (run (records pairs) w)
  ≡ₚ contents w ++ ((fun p => (p.2, heap w !! p.1)) <$> pairs).
Proof.
  revert w. induction pairs as [|[l k] pairs IH]; intros w Hinv Hall.
  - cbn. by rewrite app_nil_r.
  - apply Forall_cons in Hall as [Hl Hall]. cbn in Hl.
    destruct (lookup_lt_is_Some_2 (heap w) l Hl) as [a Ha].
    change (heap w !! l = Some a) in Ha.
    change (run (records ((l, k) :: pairs)) w)
      with (run (records pairs) (perform w (ARecord (VRef l) k))).
    assert (heap (perform w (ARecord (VRef l) k)) = heap w ++ [a]) as Hheap.
    { unfold perform. by rewrite record_unfold, Ha. }
    destruct (valid_refs_grow (heap w) a pairs Hall) as [Hall' Hmap].
    rewrite IH; [|by apply perform_inv|by rewrite Hheap].
    rewrite Hheap, Hmap, (contents_recorded w l a k Hinv Ha).
    rewrite list_insert_at_Permutation, fmap_cons. cbn [fst snd].
    by rewrite Ha, <- app_assoc.
Qed.

Lemma contents_records_unordered (pairs : list (loc * Z)) (w : world t) :
  view_inv w -> indexed_ascending (self w) = false ->
  Forall (fun p : loc * Z => p.1 < length (heap w)) pairs ->
  contents (run (records pairs) w)
  = contents w ++ ((fun p => (p.2, heap w !! p.1)) <$> pairs).
Proof.
  revert w. induction pairs as [|[l k] pairs IH]; intros w Hinv Hasc Hall.
  - cbn. by rewrite app_nil_r.
  - apply Forall_cons in Hall as [Hl Hall]. cbn in Hl.
    destruct (lookup_lt_is_Some_2 (heap w) l Hl) as [a Ha].
    change (heap w !! l = Some a) in Ha.
    change (run (records ((l, k) :: pairs)) w)
      with (run (records pairs) (perform w (ARecord (VRef l) k))).
    assert (heap (perform w (ARecord (VRef l) k)) = heap w ++ [a]) as Hheap.
    { unfold perform. by rewrite record_unfold, Ha. }
    destruct (valid_refs_grow (heap w) a pairs Hall) as [Hall' Hmap].
    rewrite IH;
      [|by apply perform_inv|by rewrite perform_flag|by rewrite Hheap].
    rewrite Hheap, Hmap, (contents_recorded w l a k Hinv Ha).
    rewrite list_insert_at_end.
    + rewrite fmap_cons. cbn [fst snd]. by rewrite Ha, <- app_assoc.
    + unfold insert_position. rewrite Hasc.
      symmetry. apply contents_length, Hinv.
Qed.

(** X11: whatever the mode, recording the caller's arrays one after the
    other stores exactly what was recorded: the stored (key, array value)
    pairs are a permutation of the recorded ones, nothing lost, nothing
    twice, nothing else. *)
Theorem records_stored_exactly c bx asc h (pairs : list (loc * Z)) :
  Forall (fun p : loc * Z => p.1 < length h) pairs ->
  contents (run (records pairs) (fresh_view c bx asc h))
  ≡ₚ (fun p => (p.2, h !! p.1)) <$> pairs.
Proof.
  intros Hall.
  by rewrite contents_records_Permutation by (by try apply fresh_view_inv).
Qed.

Lemma records_stored_exactly_witness :
  contents (run (records [(0, 3%Z); (1, 1%Z); (0, 3%Z)])
              (fresh_view Base ex_bounds true [ex_array; ex_array']))
  ≡ₚ [(3%Z, Some ex_array); (1%Z, Some ex_array'); (3%Z, Some ex_array)].
Proof.
  apply (records_stored_exactly Base ex_bounds true [ex_array; ex_array']
           [(0, 3%Z); (1, 1%Z); (0, 3%Z)]).
  repeat constructor.
Defined.

(** X12: in unordered mode the stored entries are the recorded ones in
    the order of recording. *)
Theorem records_unordered_in_order c bx h (pairs : list (loc * Z)) :
  Forall (fun p : loc * Z => p.1 < length h) pairs ->
  let w := run (records pairs) (fresh_view c bx false h) in
  contents w = (fun p => (p.2, h !! p.1)) <$> pairs /\
  _index_labels (self w) = pairs.*2.
Proof.
  intros Hall w.
  assert (contents w = (fun p => (p.2, h !! p.1)) <$> pairs) as Hc.
  { unfold w.
    by rewrite contents_records_unordered by (by try apply fresh_view_inv). }
  split; [done|].
  pose proof (reachable_inv c bx false h (records pairs)) as [Hlen _ _].
  fold w in Hlen.
  apply (f_equal (fmap fst)) in Hc. unfold contents in Hc.
  rewrite <- !list_fmap_compose in Hc.
  assert (fst <$> stored w = _index_labels (self w)) as Hfst
    by (apply fst_zip; lia).
  rewrite <- Hfst. etrans; [|etrans; [exact Hc|]]; by apply list_fmap_ext.
Qed.

Lemma records_unordered_in_order_witness :
  let w := run (records [(0, 3%Z); (1, 1%Z); (0, 3%Z)])
               (fresh_view Base ex_bounds false [ex_array; ex_array']) in
  contents w
  = [(3%Z, Some ex_array); (1%Z, Some ex_array'); (3%Z, Some ex_array)] /\
  _index_labels (self w) = [3; 1; 3]%Z.
Proof.
  apply (records_unordered_in_order Base ex_bounds [ex_array; ex_array']
           [(0, 3%Z); (1, 1%Z); (0, 3%Z)]).
  repeat constructor.
Defined.
End Contents.

(** ** When sampling raises *)

Section SampleFailure.
Context `{SheetCoordinateSystem}.

Lemma read_only_fst {O A} (m : M O A) w : read_only m -> m w = (fst (m w), w).
Proof. intros Hm. specialize (Hm w). destruct (m w). cbn in *. by subst. Qed.

Lemma mapM_first_failure {O A B} (f : A -> M O B) (l : list A) w i x e :
  (forall y, read_only (f y)) ->
  l !! i = Some x ->
  (forall j y, j < i -> l !! j = Some y -> exists b, fst (f y w) = Ok b) ->
  fst (f x w) = Err e ->
  mapM f l w = (Err e, w).
Proof.
  intros Hf. revert i. induction l as [|y l IH]; intros i Hi Hbefore Herr.
  - by rewrite lookup_nil in Hi.
  - cbn [mapM]. unfold bind at 1. rewrite (read_only_fst (f y) w (Hf y)).
    destruct i as [|i]; cbn in Hi.
    + injection Hi as ->. by rewrite Herr.
    + destruct (Hbefore 0 y) as [b Hb]; [lia|done|]. rewrite Hb.
      unfold bind at 1. rewrite (IH i); [done..| |done].
      intros j z Hj Hz. apply (Hbefore (S j)); [lia|done].
Qed.

(** X13: [sample] stops at the first stored snapshot, in stored order, for
    which the mapper or the indexing raises, and raises that exception;
    the snapshots before it having been sampled without effect, the state
    is as it was. *)
Theorem sample_raises_first_failure (w : world IndexedView.t) coords i d e :
  IndexedView._data (self w) !! i = Some d ->
  (forall j d', j < i -> IndexedView._data (self w) !! j = Some d' ->
     exists x, sample_one w coords d' = Ok x) ->
  sample_one w coords d = Err e ->
  IndexedView.sample coords w = (Err e, w).
Proof.
  intros Hd Hbefore Herr. unfold IndexedView.sample, bind, get_self.
  apply (mapM_first_failure _ _ w i d e); [|done..].
  intros y. apply read_only_bind; [apply read_only_call_coords2matrixidx|].
  intros idx. apply read_only_subscript.
Qed.

(** X14: the Cartesian mapper reads a snapshot's shape and nothing else of
    it: two arrays of one shape get the same index (or the same
    exception) under the same bounds and coordinates, whatever their
    cells, and an array whose shape has not exactly two dimensions gets
    [ValueError]. *)
Theorem Cartesian_mapper_reads_shape {O O'} bx coords
    (w : world O) (w' : world O') d d' a a' :
  heap w !! d = Some a -> heap w' !! d' = Some a' ->
  (shape a = shape a' ->
   fst (call_coords2matrixidx Cartesian bx coords (VRef d) w)
   = fst (call_coords2matrixidx Cartesian bx coords (VRef d') w')) /\
  (length (shape a) <> 2 ->
   call_coords2matrixidx Cartesian bx coords (VRef d) w = (Err ValueError, w)).
Proof.
  intros Ha Ha'.
  unfold call_coords2matrixidx, Cartesian2D._coords2matrixidx, lbrt.
  unfold bind, deref, py_div, lift, raise, ret. rewrite Ha, Ha'. split.
  - intros <-. destruct (shape a) as [|dim1 [|dim2 [|? ?]]]; try done.
    destruct (Qeq_bool (bb_r bx - bb_l bx) 0); [done|].
    by destruct (Qeq_bool (bb_t bx - bb_b bx) 0).
  - intros Hlen. by destruct (shape a) as [|dim1 [|dim2 [|? ?]]].
Qed.

End SampleFailure.

Lemma sample_raises_first_failure_witness :
  let w := run [ARecord (VRef 0) 1%Z; ARecord (VRef 0) 2%Z;
                AStore 2 (mk_ndarray [4] [1; 2; 3; 4]%Z)]
               (fresh_view Cartesian ex_bounds true [ex_array]) in
  @IndexedView.sample ex_sheet (1 # 2, 1 # 2) w = (Err ValueError, w).
Proof.
  intros w.
  apply (@sample_raises_first_failure ex_sheet w (1 # 2, 1 # 2) 1 2 ValueError).
  - reflexivity.
  - intros j d' Hj Hd'. destruct j as [|j]; [|lia].
    injection Hd' as <-. by exists 30%Z.
  - reflexivity.
Defined.

Lemma Cartesian_mapper_reads_shape_witness :
  fst (@call_coords2matrixidx ex_sheet _ Cartesian ex_bounds (3 # 2, 1 # 2)
         (VRef 0) (mk_world [ex_array; ex_array'] tt))
  = fst (@call_coords2matrixidx ex_sheet _ Cartesian ex_bounds (3 # 2, 1 # 2)
           (VRef 1) (mk_world [ex_array; ex_array'] tt)) /\
  @call_coords2matrixidx ex_sheet _ Cartesian ex_bounds (3 # 2, 1 # 2)
     (VRef 0) (mk_world [mk_ndarray [4] [1; 2; 3; 4]%Z] tt)
  = (Err ValueError, mk_world [mk_ndarray [4] [1; 2; 3; 4]%Z] tt).
Proof.
  split.
  - apply (@Cartesian_mapper_reads_shape ex_sheet unit unit ex_bounds
             (3 # 2, 1 # 2) (mk_world [ex_array; ex_array'] tt)
             (mk_world [ex_array; ex_array'] tt) 0 1 ex_array ex_array');
      reflexivity.
  - apply (@Cartesian_mapper_reads_shape ex_sheet unit unit ex_bounds
             (3 # 2, 1 # 2) (mk_world [mk_ndarray [4] [1; 2; 3; 4]%Z] tt)
             (mk_world [mk_ndarray [4] [1; 2; 3; 4]%Z] tt) 0 0
             (mk_ndarray [4] [1; 2; 3; 4]%Z) (mk_ndarray [4] [1; 2; 3; 4]%Z));
      [reflexivity..|]. cbn. lia.
Defined.
